(** * GaiaComponents: the type-keyed sub-component registry

    A shallow embedding of [Gaia::Components::Component]
    (GaiaComponents/Component.hpp, GaiaComponents/Component.cpp) and the
    properties of its attach / detach / separate protocol.

    Ownership through [std::unique_ptr] is tree shaped, so a component is a
    tree node that owns its sub components.  The raw, non-owning pointers of
    the source ([Parent], the pointers handed to the hooks, [this]) are
    addresses.  The four virtual hooks are opaque to the registry: the model
    records every call, together with what [GetParent()] would return inside
    it, in an event log.  A destructor run is an event as well. *)

From Stdlib Require Import List ZArith NArith Bool Arith Lia Permutation.
Import ListNotations.

(** ** Data model *)

(** [std::size_t]: the value of [typeid(T).hash_code()], used as map key. *)
Definition size_t := N.

(** The address of a heap object; [None : option addr] is [nullptr]. *)
Definition addr := N.

(** The identity of a class ([std::type_info]). *)
Definition type_index := nat.

(** [class Component]: [address] is [this], [dynamic_type] the most derived
    class of the object, [Members] the state a derived class adds
    ([SampleValue] in the tests).  [SubComponents] is the
    [std::unordered_map<std::size_t, std::unique_ptr<Component>>]; the list
    order is the iteration order of the map.  No slot holds an empty
    [unique_ptr]: the only statement that can store one is followed by the
    dereference that faults (see [AddSubComponent]). *)
Unset Elimination Schemes.
Inductive Component : Type := mkComponent {
  address : addr;
  dynamic_type : type_index;
  Parent : option addr;
  SubComponents : list (size_t * Component);
  Members : Z
}.
Set Elimination Schemes.

(** [std::unique_ptr<Component>]: empty, or owning one object. *)
Definition unique_ptr := option Component.

Definition set_Parent (p : option addr) (c : Component) : Component :=
  mkComponent (address c) (dynamic_type c) p (SubComponents c) (Members c).

Definition set_SubComponents (m : list (size_t * Component)) (c : Component)
  : Component :=
  mkComponent (address c) (dynamic_type c) (Parent c) m (Members c).

(** ** Observable events *)

(** A call of a virtual hook, or a destructor run.  The child side hooks
    carry the value [GetParent()] has during the call; the parent side hooks
    carry [this], the pointer they receive and that component's [Parent]. *)
Inductive Event : Type :=
| EvAttachedToComponent (self : addr) (parent : option addr)
| EvDetachedFromComponent (self : addr) (parent : option addr)
| EvComponentAttached (self component : addr) (component_parent : option addr)
| EvComponentDetached (self component : addr) (component_parent : option addr)
| EvDestructor (self : addr).

(** The event is a call of [OnDetachedFromComponent] on the object at [a]. *)
Definition is_detached_from (a : addr) (e : Event) : bool :=
  match e with
  | EvDetachedFromComponent s _ => N.eqb s a
  | _ => false
  end.

Definition is_component_attached (e : Event) : bool :=
  match e with
  | EvComponentAttached _ _ _ => true
  | _ => false
  end.

Definition is_component_detached (e : Event) : bool :=
  match e with
  | EvComponentDetached _ _ _ => true
  | _ => false
  end.

Definition is_destructor (a : addr) (e : Event) : bool :=
  match e with
  | EvDestructor s => N.eqb s a
  | _ => false
  end.

(** How many events of a log satisfy [f]. *)
Definition count (f : Event -> bool) (log : list Event) : nat :=
  length (filter f log).

(** [e1] is logged strictly before [e2]. *)
Definition before (e1 e2 : Event) (log : list Event) : Prop :=
  exists l1 l2 l3, log = l1 ++ e1 :: l2 ++ e2 :: l3.

(** ** The map operations the registry uses *)

Definition Map := list (size_t * Component).

(** [SubComponents.find(hash)]; [None] is [SubComponents.end()]. *)
Fixpoint find (hash : size_t) (m : Map) : option Component :=
  match m with
  | [] => None
  | (k, c) :: m' => if N.eqb k hash then Some c else find hash m'
  end.

(** [SubComponents.erase(finder)]: removes the element [find] points at. *)
Fixpoint erase (hash : size_t) (m : Map) : Map :=
  match m with
  | [] => []
  | (k, c) :: m' => if N.eqb k hash then m' else (k, c) :: erase hash m'
  end.

(** [finder->second = std::move(component_instance)]: the element [find]
    points at gets a new value, in place. *)
Fixpoint assign (hash : size_t) (c : Component) (m : Map) : Map :=
  match m with
  | [] => []
  | (k, c0) :: m' =>
      if N.eqb k hash then (k, c) :: m' else (k, c0) :: assign hash c m'
  end.

(** [SubComponents.emplace(hash, ...)]: inserts unless the key is there. *)
Definition emplace (hash : size_t) (c : Component) (m : Map) : Map :=
  match find hash m with
  | Some _ => m
  | None => (hash, c) :: m
  end.

Definition keys (m : Map) : list size_t := List.map fst m.

(** ** Destruction *)

(** [Component::~Component()], followed by the destruction of the members:
    the body calls [OnDetachedFromComponent] on every element of
    [SubComponents]; then the map is destroyed, which deletes every child. *)
Fixpoint destroy (c : Component) : list Event :=
  EvDestructor (address c)
  :: List.map (fun kv : size_t * Component =>
                 let (_, child) := kv in
                 EvDetachedFromComponent (address child) (Parent child))
              (SubComponents c)
  ++ flat_map (fun kv : size_t * Component =>
                 let (_, child) := kv in destroy child)
              (SubComponents c).

(** All addresses of the objects a component owns, itself first. *)
Fixpoint addresses (c : Component) : list addr :=
  address c
  :: flat_map (fun kv : size_t * Component =>
                 let (_, child) := kv in addresses child)
              (SubComponents c).

(** The keys of a map are pairwise distinct, as in any
    [std::unordered_map]. *)
Definition unique_keys (c : Component) : Prop :=
  NoDup (keys (SubComponents c)).

(** Live objects have pairwise distinct addresses. *)
Definition distinct_addresses (c : Component) : Prop := NoDup (addresses c).

(** ** The registry monad

    A member function runs on [this], may log events and may fault on a null
    pointer; the fault keeps the events logged before it. *)
Inductive result (A : Type) : Type :=
| Ok (a : A) (this : Component) (log : list Event)
| NullPointerDereference (log : list Event).
Arguments Ok {A} a this log.
Arguments NullPointerDereference {A} log.

Definition M (A : Type) : Type := Component -> result A.

Definition ret {A : Type} (a : A) : M A := fun this => Ok a this [].

Definition bind {A B : Type} (m : M A) (k : A -> M B) : M B :=
  fun this =>
    match m this with
    | Ok a this1 log1 =>
        match k a this1 with
        | Ok b this2 log2 => Ok b this2 (log1 ++ log2)
        | NullPointerDereference log2 => NullPointerDereference (log1 ++ log2)
        end
    | NullPointerDereference log1 => NullPointerDereference log1
    end.

Declare Scope registry_scope.
Delimit Scope registry_scope with registry.
Notation "x <- m ;; k" := (bind m (fun x => k))
  (at level 61, m at next level, right associativity) : registry_scope.
Notation "m ;; k" := (bind m (fun _ => k))
  (at level 61, right associativity) : registry_scope.
Open Scope registry_scope.

Definition get_this : M Component := fun this => Ok this this [].

Definition emit (e : Event) : M unit := fun this => Ok tt this [e].

Definition emit_all (l : list Event) : M unit := fun this => Ok tt this l.

(** An update of the member [SubComponents] of [this]. *)
Definition modify_SubComponents (f : Map -> Map) : M unit :=
  fun this => Ok tt (set_SubComponents (f (SubComponents this)) this) [].

(** [p->...]: undefined on [nullptr]. *)
Definition deref (p : unique_ptr) : M Component :=
  fun this =>
    match p with
    | Some c => Ok c this []
    | None => NullPointerDereference []
    end.

(** ** The virtual hooks *)

(** [component->OnAttachedToComponent()]. *)
Definition OnAttachedToComponent (component : Component) : M unit :=
  emit (EvAttachedToComponent (address component) (Parent component)).

(** [component->OnDetachedFromComponent()]. *)
Definition OnDetachedFromComponent (component : Component) : M unit :=
  emit (EvDetachedFromComponent (address component) (Parent component)).

(** [this->OnComponentAttached(component)]. *)
Definition OnComponentAttached (component : Component) : M unit :=
  this <- get_this ;;
  emit (EvComponentAttached (address this) (address component)
          (Parent component)).

(** [this->OnComponentDetached(component)]. *)
Definition OnComponentDetached (component : Component) : M unit :=
  this <- get_this ;;
  emit (EvComponentDetached (address this) (address component)
          (Parent component)).

(** [GetParent<ComponentType>()]: a [static_cast] of [Parent], unchecked. *)
Definition GetParent (c : Component) : option addr := Parent c.

(** ** The private member functions (Component.cpp) *)

(** The element [find] pointed at is overwritten by [component_instance];
    the [unique_ptr] assignment deletes the object the slot owned.  An empty
    [component_instance] leaves an empty slot, which the model's map cannot
    hold: the slot is dropped, and the statement that follows in
    [AddSubComponent] faults. *)
Definition move_assign (hash : size_t) (old : Component)
    (component_instance : unique_ptr) : M unit :=
  match component_instance with
  | Some c => modify_SubComponents (assign hash c)
  | None => modify_SubComponents (erase hash)
  end ;;
  emit_all (destroy old).

(** [SubComponents.emplace(hash, std::move(component_instance))] on an absent
    key; for an empty [component_instance] see [move_assign]. *)
Definition emplace_ptr (hash : size_t) (component_instance : unique_ptr)
  : M unit :=
  match component_instance with
  | Some c => modify_SubComponents (emplace hash c)
  | None => ret tt
  end.

(** [component_pointer->Parent = this], on the object the slot now owns. *)
Definition set_slot_Parent (hash : size_t) (component_pointer : Component)
  : M Component :=
  this <- get_this ;;
  let c := set_Parent (Some (address this)) component_pointer in
  modify_SubComponents (assign hash c) ;;
  ret c.

(** [Component::AddSubComponent], Component.cpp lines 19-42. *)
Definition AddSubComponent (hash : size_t) (component_instance : unique_ptr)
  : M Component :=
  let component_pointer := component_instance in
  this <- get_this ;;
  match find hash (SubComponents this) with
  | Some old =>
      OnComponentDetached old ;;
      OnDetachedFromComponent old ;;
      move_assign hash old component_instance
  | None =>
      emplace_ptr hash component_instance
  end ;;
  pointee <- deref component_pointer ;;
  c <- set_slot_Parent hash pointee ;;
  OnComponentAttached c ;;
  OnAttachedToComponent c ;;
  ret c.

(** [Component::RemoveSubComponent], Component.cpp lines 45-56.  Erasing the
    element deletes the object it owns. *)
Definition RemoveSubComponent (hash : size_t) : M unit :=
  this <- get_this ;;
  match find hash (SubComponents this) with
  | Some c =>
      OnDetachedFromComponent c ;;
      OnComponentDetached c ;;
      modify_SubComponents (erase hash) ;;
      emit_all (destroy c)
  | None => ret tt
  end.

(** [Component::GetSubComponent], Component.cpp lines 59-69. *)
Definition GetSubComponent (hash : size_t) : M unique_ptr :=
  this <- get_this ;;
  match find hash (SubComponents this) with
  | Some c => ret (Some c)
  | None => ret None
  end.

(** [Component::SeparateSubComponent], Component.cpp lines 81-93.  The
    element is moved from before it is erased, so nothing is deleted. *)
Definition SeparateSubComponent (hash : size_t) : M unique_ptr :=
  this <- get_this ;;
  match find hash (SubComponents this) with
  | Some c =>
      let component := Some c in
      modify_SubComponents (erase hash) ;;
      ret component
  | None => ret None
  end.

(** ** The public member templates (Component.hpp) *)

(** What the run-time type information and the constructors of the program
    provide: [typeid(T).hash_code()], where distinct classes may share a
    value; the proper base classes of a class, direct and indirect; and what
    the constructor of a class makes of its arguments. *)
Class TypeInfo : Type := {
  hash_code : type_index -> size_t;
  bases : type_index -> list type_index;
  construct : type_index -> list Z -> Z
}.

Section Templates.

Context {RTTI : TypeInfo}.

(** [std::is_base_of_v<Base, Derived>]. *)
Definition is_base_of (Base Derived : type_index) : bool :=
  Nat.eqb Base Derived || existsb (Nat.eqb Base) (bases Derived).

(** [dynamic_cast<ComponentType*>(p)]: null when [p] is null or the object
    is not a [ComponentType]. *)
Definition dynamic_cast (ComponentType : type_index) (p : unique_ptr)
  : unique_ptr :=
  match p with
  | Some c =>
      if is_base_of ComponentType (dynamic_type c) then Some c else None
  | None => None
  end.

(** [std::make_unique<ComponentType>(arguments...)]; [a] is the address
    the allocation returns.  [Parent] starts as [nullptr] and
    [SubComponents] empty. *)
Definition make_unique (ComponentType : type_index) (a : addr)
    (arguments : list Z) : unique_ptr :=
  Some (mkComponent a ComponentType None []
          (construct ComponentType arguments)).

(** [HasComponent<ComponentType>()], Component.hpp lines 117-121. *)
Definition HasComponent (ComponentType : type_index) : M bool :=
  p <- GetSubComponent (hash_code ComponentType) ;;
  ret (match p with Some _ => true | None => false end).

(** [AddComponent<ComponentType>(arguments...)], lines 131-139. *)
Definition AddComponent (ComponentType : type_index) (a : addr)
    (arguments : list Z) : M unique_ptr :=
  c <- AddSubComponent (hash_code ComponentType)
         (make_unique ComponentType a arguments) ;;
  ret (dynamic_cast ComponentType (Some c)).

(** [AdoptComponent<ComponentType>(component)], lines 148-158.  The cast
    of the released pointer to [Component*] is an upcast. *)
Definition AdoptComponent (ComponentType : type_index)
    (component : unique_ptr) : M unique_ptr :=
  let component_instance := component in
  c <- AddSubComponent (hash_code ComponentType) component_instance ;;
  ret (dynamic_cast ComponentType (Some c)).

(** [RemoveComponent<ComponentType>()], lines 164-170. *)
Definition RemoveComponent (ComponentType : type_index) : M unit :=
  RemoveSubComponent (hash_code ComponentType).

(** [GetComponent<ComponentType>()], lines 178-184. *)
Definition GetComponent (ComponentType : type_index) : M unique_ptr :=
  p <- GetSubComponent (hash_code ComponentType) ;;
  ret (dynamic_cast ComponentType p).

(** [AcquireComponent<ComponentType>()], lines 191-199; [a] is the
    address a construction would get. *)
Definition AcquireComponent (ComponentType : type_index) (a : addr)
  : M unique_ptr :=
  component <- GetComponent ComponentType ;;
  match component with
  | Some c => ret (Some c)
  | None => AddComponent ComponentType a []
  end.

(** [SeparateComponent<ComponentType>()], lines 206-214.  When the cast
    fails the released object is neither returned nor deleted. *)
Definition SeparateComponent (ComponentType : type_index) : M unique_ptr :=
  p <- SeparateSubComponent (hash_code ComponentType) ;;
  ret (dynamic_cast ComponentType p).

(** The component holds a child keyed [ComponentType]: that is what
    [GetComponent<ComponentType>()] returns. *)
Definition holds_child (ComponentType : type_index) (this c : Component)
  : Prop :=
  GetComponent ComponentType this = Ok (Some c) this [].

(** [GetComponent<ComponentType>()] returns null. *)
Definition holds_no_child (ComponentType : type_index) (this : Component)
  : Prop :=
  GetComponent ComponentType this = Ok None this [].

End Templates.

(** ** The classes of the test file (GaiaComponentsTest/ComponentTest.cpp) *)

Module Sample.

Definition SampleBasicComponent : type_index := 1%nat.
Definition SampleValueComponent : type_index := 2%nat.

(** Implementations give every class its own hash code; both classes derive
    from [Component] (class 0) only; [SampleValueComponent(int value)] stores
    its argument, and [SampleValue] is 0 without one. *)
#[export] Instance type_info : TypeInfo := {
  hash_code T := N.of_nat T;
  bases T := match T with O => [] | _ => [0%nat] end;
  construct T arguments := hd 0%Z arguments
}.

(** A parent at address 100 holding a [SampleValueComponent] at 200, which
    itself holds a [SampleBasicComponent] at 300. *)
Definition grandchild : Component :=
  mkComponent 300%N SampleBasicComponent (Some 200%N) [] 0%Z.

Definition child : Component :=
  mkComponent 200%N SampleValueComponent (Some 100%N)
    [(hash_code SampleBasicComponent, grandchild)] 6%Z.

Definition parent : Component :=
  mkComponent 100%N SampleBasicComponent None
    [(hash_code SampleValueComponent, child)] 0%Z.

(** A standalone [SampleValueComponent] at 400, owned by the caller. *)
Definition standalone : Component :=
  mkComponent 400%N SampleValueComponent None [] 7%Z.

(** A parent at address 100 without sub components. *)
Definition empty_parent : Component :=
  mkComponent 100%N SampleBasicComponent None [] 0%Z.

(** [TEST(ComponentTest, Basic)], lines 43-60: the values the expectations
    look at, in order. *)
Definition Basic : M (list unique_ptr) :=
  _ <- AddComponent SampleValueComponent 200%N [1%Z] ;;
  value1 <- GetComponent SampleValueComponent ;;
  basic1 <- GetComponent SampleBasicComponent ;;
  _ <- AddComponent SampleBasicComponent 300%N [] ;;
  RemoveComponent SampleValueComponent ;;
  value2 <- GetComponent SampleValueComponent ;;
  basic2 <- GetComponent SampleBasicComponent ;;
  sample_sub_component <- SeparateComponent SampleBasicComponent ;;
  sample_sub_component2 <- SeparateComponent SampleBasicComponent ;;
  ret [value1; basic1; value2; basic2;
       sample_sub_component; sample_sub_component2].

End Sample.

(** ** The locking discipline

    Every private member function takes [SubComponentsMutex] on entry and
    holds it until it returns.  Threads that call into one component are
    modelled by what they run and whether they are before, inside or after
    the critical section; a schedule picks the thread that moves next. *)

Module Locking.

(** [std::unique_lock] takes the mutex exclusively, [std::shared_lock]
    takes it shared. *)
Inductive lock_kind : Type := unique_lock | shared_lock.

(** The member functions that touch [SubComponents] under the mutex. *)
Inductive member : Type :=
| call_AddSubComponent
| call_RemoveSubComponent
| call_GetSubComponent
| call_SeparateSubComponent.

(** The lock each function declares, Component.cpp lines 23, 47, 61, 83. *)
Definition guard (f : member) : lock_kind :=
  match f with
  | call_AddSubComponent => unique_lock
  | call_RemoveSubComponent => unique_lock
  | call_GetSubComponent => shared_lock
  | call_SeparateSubComponent => shared_lock
  end.

(** Whether the function changes the map: [emplace] or assignment to an
    element (lines 30, 34), [erase] (lines 54, 89); [GetSubComponent] only
    calls [find]. *)
Definition writes_SubComponents (f : member) : bool :=
  match f with
  | call_AddSubComponent => true
  | call_RemoveSubComponent => true
  | call_GetSubComponent => false
  | call_SeparateSubComponent => true
  end.

(** [std::shared_mutex]: held exclusively, or by a number of sharers. *)
Record shared_mutex : Type := mkMutex {
  exclusive : bool;
  sharers : nat
}.

(** Acquisition; [None] means the caller has to wait. *)
Definition acquire (k : lock_kind) (m : shared_mutex)
  : option shared_mutex :=
  match k with
  | unique_lock =>
      if exclusive m || negb (Nat.eqb (sharers m) 0) then None
      else Some (mkMutex true 0)
  | shared_lock =>
      if exclusive m then None
      else Some (mkMutex false (S (sharers m)))
  end.

Definition release (k : lock_kind) (m : shared_mutex) : shared_mutex :=
  match k with
  | unique_lock => mkMutex false (sharers m)
  | shared_lock => mkMutex (exclusive m) (Nat.pred (sharers m))
  end.

Inductive phase : Type := waiting | inside | finished.

Record thread : Type := mkThread {
  call : member;
  pc : phase
}.

Record system : Type := mkSystem {
  SubComponentsMutex : shared_mutex;
  threads : list thread
}.

Fixpoint update (i : nat) (t : thread) (l : list thread) : list thread :=
  match l, i with
  | [], _ => []
  | _ :: l', O => t :: l'
  | x :: l', S i' => x :: update i' t l'
  end.

(** Thread [i] takes its next step, if it can. *)
Definition step (i : nat) (s : system) : option system :=
  match nth_error (threads s) i with
  | None => None
  | Some t =>
      match pc t with
      | waiting =>
          match acquire (guard (call t)) (SubComponentsMutex s) with
          | Some m =>
              Some (mkSystem m (update i (mkThread (call t) inside)
                                  (threads s)))
          | None => None
          end
      | inside =>
          Some (mkSystem (release (guard (call t)) (SubComponentsMutex s))
                  (update i (mkThread (call t) finished) (threads s)))
      | finished => None
      end
  end.

Fixpoint run (schedule : list nat) (s : system) : option system :=
  match schedule with
  | [] => Some s
  | i :: schedule' =>
      match step i s with
      | Some s' => run schedule' s'
      | None => None
      end
  end.

(** All threads are about to call, the mutex is free. *)
Definition start (calls : list member) : system :=
  mkSystem (mkMutex false 0) (List.map (fun f => mkThread f waiting) calls).

(** No thread is inside a function that changes the map while another
    thread is inside any of the functions. *)
Definition mutually_exclusive (s : system) : Prop :=
  forall i j ti tj,
    i <> j ->
    nth_error (threads s) i = Some ti ->
    nth_error (threads s) j = Some tj ->
    pc ti = inside ->
    writes_SubComponents (call ti) = true ->
    pc tj <> inside.

(** The number of threads inside under a lock of kind [k]. *)
Definition holds (k : lock_kind) (t : thread) : bool :=
  match pc t, guard (call t), k with
  | inside, unique_lock, unique_lock => true
  | inside, shared_lock, shared_lock => true
  | _, _, _ => false
  end.

Definition holders (k : lock_kind) (s : system) : nat :=
  length (filter (holds k) (threads s)).

(** The mutex records who is inside: the sharers are the threads inside
    under a shared lock, and it is exclusive exactly when one thread is
    inside under a unique lock, alone. *)
Definition consistent (s : system) : Prop :=
  sharers (SubComponentsMutex s) = holders shared_lock s
  /\ if exclusive (SubComponentsMutex s)
     then holders unique_lock s = 1%nat /\ holders shared_lock s = 0%nat
     else holders unique_lock s = 0%nat.

End Locking.

(** ** Auxiliary definitions for the statements *)

(** The events of the replace branch of [AddSubComponent]. *)
Definition replaced_log (this old : Component) : list Event :=
  [EvComponentDetached (address this) (address old) (Parent old);
   EvDetachedFromComponent (address old) (Parent old)]
  ++ destroy old.

(** The events of the common tail of [AddSubComponent]. *)
Definition attached_log (this n : Component) : list Event :=
  [EvComponentAttached (address this) (address n) (Some (address this));
   EvAttachedToComponent (address n) (Some (address this))].

Definition children (c : Component) : list Component :=
  List.map snd (SubComponents c).

(** The addresses of the objects below [c], [c] itself excluded. *)
Definition descendants (c : Component) : list addr := tl (addresses c).

(** [GetComponents()], Component.hpp lines 106-109: a read-only view of the
    map; it takes no lock. *)
Definition GetComponents (this : Component) : Map := SubComponents this.

(** The addresses of all objects the elements of a map own. *)
Definition owned (m : Map) : list addr :=
  flat_map (fun kv : size_t * Component =>
              let (_, child) := kv in addresses child) m.

(** The objects whose destructor a log records, in the order of the runs. *)
Definition destroyed (log : list Event) : list addr :=
  flat_map (fun e => match e with
                     | EvDestructor a => [a]
                     | _ => []
                     end) log.

(** The event is a call of [OnDetachedFromComponent], on any object. *)
Definition is_detach_hook (e : Event) : bool :=
  match e with
  | EvDetachedFromComponent _ _ => true
  | _ => false
  end.

(** The event is a call of [OnAttachedToComponent], on any object. *)
Definition is_attach_hook (e : Event) : bool :=
  match e with
  | EvAttachedToComponent _ _ => true
  | _ => false
  end.

(** Every sub component points back at the component that owns it. *)
Definition children_point_back (this : Component) : Prop :=
  forall k c, In (k, c) (SubComponents this) ->
              Parent c = Some (address this).

(** The steps the threads of a system still have to take: a waiting thread
    has to enter and to leave, a thread inside has to leave. *)
Definition remaining (s : Locking.system) : nat :=
  list_sum (List.map (fun t => match Locking.pc t with
                               | Locking.waiting => 2%nat
                               | Locking.inside => 1%nat
                               | Locking.finished => 0%nat
                               end) (Locking.threads s)).

(** A program in which all classes share one hash code, which the standard
    allows: the slot a class looks in can hold an object of another class. *)
Module Collision.

Definition type_info : TypeInfo := {|
  hash_code := fun _ => 7%N;
  bases := fun _ => [];
  construct := fun _ arguments => hd 0%Z arguments
|}.

(** An object of class 1 at address 200 ... *)
Definition foreign : Component :=
  mkComponent 200%N 1%nat (Some 100%N) [] 5%Z.

(** ... in the only slot of a component at address 100. *)
Definition holder : Component :=
  mkComponent 100%N 0%nat None [(7%N, foreign)] 0%Z.

End Collision.

(** * Properties *)

(** ** Induction over the ownership tree *)

Lemma Component_ind (P : Component -> Prop) :
  (forall a t p m v,
      Forall (fun kv : size_t * Component => P (snd kv)) m ->
      P (mkComponent a t p m v)) ->
  forall c, P c.
Proof.
  intros H.
  fix IH 1.
  intros [a t p m v].
  apply H.
  induction m as [|[k child] m' IHm].
  - constructor.
  - constructor.
    + simpl. apply IH.
    + exact IHm.
Qed.

(** ** The map operations *)

Lemma find_In hash m c : find hash m = Some c -> In (hash, c) m.
Proof.
  induction m as [|[k c0] m' IH]; simpl; [discriminate|].
  destruct (N.eqb k hash) eqn:E.
  - intros [= ->]. apply N.eqb_eq in E. subst. now left.
  - intros H. right. now apply IH.
Qed.

Lemma find_None_keys hash m : find hash m = None <-> ~ In hash (keys m).
Proof.
  induction m as [|[k c0] m' IH]; simpl.
  - split; [intros _ []|reflexivity].
  - destruct (N.eqb k hash) eqn:E.
    + apply N.eqb_eq in E. split; [discriminate|]. intros H. exfalso. auto.
    + apply N.eqb_neq in E. rewrite IH. tauto.
Qed.

Lemma find_erase hash m :
  NoDup (keys m) -> find hash (erase hash m) = None.
Proof.
  induction m as [|[k c0] m' IH]; simpl; [reflexivity|].
  intros H. inversion H as [|? ? Hk Hm']; subst.
  destruct (N.eqb k hash) eqn:E.
  - apply N.eqb_eq in E. subst. now apply find_None_keys.
  - simpl. rewrite E. now apply IH.
Qed.

Lemma find_assign hash c m old :
  find hash m = Some old -> find hash (assign hash c m) = Some c.
Proof.
  induction m as [|[k c0] m' IH]; simpl; [discriminate|].
  destruct (N.eqb k hash) eqn:E; simpl; rewrite E; auto.
Qed.

Lemma assign_assign hash c c' m :
  assign hash c' (assign hash c m) = assign hash c' m.
Proof.
  induction m as [|[k c0] m' IH]; simpl; [reflexivity|].
  destruct (N.eqb k hash) eqn:E; simpl; rewrite E; [reflexivity|].
  now rewrite IH.
Qed.

Lemma keys_assign hash c m : keys (assign hash c m) = keys m.
Proof.
  unfold keys.
  induction m as [|[k c0] m' IH]; simpl; [reflexivity|].
  destruct (N.eqb k hash); simpl; [reflexivity|].
  now rewrite IH.
Qed.

Lemma keys_erase_incl hash m k : In k (keys (erase hash m)) -> In k (keys m).
Proof.
  unfold keys.
  induction m as [|[k0 c0] m' IH]; simpl; [tauto|].
  destruct (N.eqb k0 hash); simpl; tauto.
Qed.

Lemma NoDup_keys_erase hash m : NoDup (keys m) -> NoDup (keys (erase hash m)).
Proof.
  induction m as [|[k0 c0] m' IH]; simpl; [auto|].
  intros H. inversion H as [|? ? Hk Hm']; subst.
  destruct (N.eqb k0 hash); [assumption|].
  change (NoDup (k0 :: keys (erase hash m'))).
  constructor; [|now apply IH].
  intros Hin. apply Hk. eapply keys_erase_incl. exact Hin.
Qed.

(** ** What the private member functions compute *)

Lemma AddSubComponent_replace hash n this old :
  find hash (SubComponents this) = Some old ->
  AddSubComponent hash (Some n) this =
  Ok (set_Parent (Some (address this)) n)
     (set_SubComponents
        (assign hash (set_Parent (Some (address this)) n)
           (SubComponents this)) this)
     (replaced_log this old ++ attached_log this n).
Proof.
  intros H.
  unfold AddSubComponent, bind, get_this. rewrite H.
  cbn. rewrite assign_assign. reflexivity.
Qed.

Lemma AddSubComponent_insert hash n this :
  find hash (SubComponents this) = None ->
  AddSubComponent hash (Some n) this =
  Ok (set_Parent (Some (address this)) n)
     (set_SubComponents
        ((hash, set_Parent (Some (address this)) n) :: SubComponents this)
        this)
     (attached_log this n).
Proof.
  intros H.
  unfold AddSubComponent, bind, get_this. rewrite H.
  cbn. unfold emplace. rewrite H. cbn. rewrite N.eqb_refl. reflexivity.
Qed.

Lemma AddSubComponent_null hash this :
  AddSubComponent hash None this =
  NullPointerDereference
    match find hash (SubComponents this) with
    | Some old => replaced_log this old
    | None => []
    end.
Proof.
  unfold AddSubComponent, bind, get_this.
  destruct (find hash (SubComponents this)) as [old|]; cbn.
  - rewrite app_nil_r. reflexivity.
  - reflexivity.
Qed.

Lemma RemoveSubComponent_present hash this c :
  find hash (SubComponents this) = Some c ->
  RemoveSubComponent hash this =
  Ok tt (set_SubComponents (erase hash (SubComponents this)) this)
     ([EvDetachedFromComponent (address c) (Parent c);
       EvComponentDetached (address this) (address c) (Parent c)]
      ++ destroy c).
Proof.
  intros H. unfold RemoveSubComponent, bind, get_this. rewrite H.
  cbn. reflexivity.
Qed.

Lemma RemoveSubComponent_absent hash this :
  find hash (SubComponents this) = None ->
  RemoveSubComponent hash this = Ok tt this [].
Proof.
  intros H. unfold RemoveSubComponent, bind, get_this. rewrite H.
  reflexivity.
Qed.

Lemma GetSubComponent_eq hash this :
  GetSubComponent hash this = Ok (find hash (SubComponents this)) this [].
Proof.
  unfold GetSubComponent, bind, get_this.
  now destruct (find hash (SubComponents this)).
Qed.

Lemma SeparateSubComponent_present hash this c :
  find hash (SubComponents this) = Some c ->
  SeparateSubComponent hash this =
  Ok (Some c) (set_SubComponents (erase hash (SubComponents this)) this) [].
Proof.
  intros H. unfold SeparateSubComponent, bind, get_this. rewrite H.
  reflexivity.
Qed.

Lemma SeparateSubComponent_absent hash this :
  find hash (SubComponents this) = None ->
  SeparateSubComponent hash this = Ok None this [].
Proof.
  intros H. unfold SeparateSubComponent, bind, get_this. rewrite H.
  reflexivity.
Qed.

(** The member functions keep the keys of the map unique. *)
Lemma AddSubComponent_unique_keys hash c this r this' log :
  unique_keys this ->
  AddSubComponent hash (Some c) this = Ok r this' log ->
  unique_keys this'.
Proof.
  unfold unique_keys. intros Hk.
  destruct (find hash (SubComponents this)) as [old|] eqn:Hf.
  - rewrite (AddSubComponent_replace _ c _ _ Hf). intros [= _ <- _].
    cbn. now rewrite keys_assign.
  - rewrite (AddSubComponent_insert _ c _ Hf). intros [= _ <- _].
    cbn. constructor; [|exact Hk]. now apply find_None_keys.
Qed.

Lemma RemoveSubComponent_unique_keys hash this this' log :
  unique_keys this ->
  RemoveSubComponent hash this = Ok tt this' log ->
  unique_keys this'.
Proof.
  unfold unique_keys. intros Hk.
  destruct (find hash (SubComponents this)) as [c|] eqn:Hf.
  - rewrite (RemoveSubComponent_present _ _ _ Hf). intros [= <- _].
    cbn. now apply NoDup_keys_erase.
  - rewrite (RemoveSubComponent_absent _ _ Hf). now intros [= <- _].
Qed.

Lemma SeparateSubComponent_unique_keys hash this r this' log :
  unique_keys this ->
  SeparateSubComponent hash this = Ok r this' log ->
  unique_keys this'.
Proof.
  unfold unique_keys. intros Hk.
  destruct (find hash (SubComponents this)) as [c|] eqn:Hf.
  - rewrite (SeparateSubComponent_present _ _ _ Hf). intros [= _ <- _].
    cbn. now apply NoDup_keys_erase.
  - rewrite (SeparateSubComponent_absent _ _ Hf). now intros [= _ <- _].
Qed.

(** ** Counting the events of a destruction *)

Lemma count_app f l1 l2 : count f (l1 ++ l2) = (count f l1 + count f l2)%nat.
Proof. unfold count. rewrite filter_app, length_app. reflexivity. Qed.

Lemma count_cons f e l :
  count f (e :: l) = ((if f e then 1 else 0) + count f l)%nat.
Proof. unfold count. simpl. now destruct (f e). Qed.

Lemma count_occ_flat_map_cons (a : addr) (c : Component) :
  count_occ N.eq_dec (addresses c) a =
  ((if N.eqb (address c) a then 1 else 0)
   + count_occ N.eq_dec (descendants c) a)%nat.
Proof.
  destruct c as [a0 t p m v]. unfold descendants. simpl.
  destruct (N.eq_dec a0 a) as [->|Hne].
  - now rewrite N.eqb_refl.
  - apply N.eqb_neq in Hne. now rewrite Hne.
Qed.

(** [OnDetachedFromComponent] runs on an object as often as its address
    occurs among the descendants of the destroyed component. *)
Lemma count_detached_destroy (a : addr) (c : Component) :
  count (is_detached_from a) (destroy c)
  = count_occ N.eq_dec (descendants c) a.
Proof.
  induction c as [a0 t p m v IH] using Component_ind.
  unfold descendants. simpl.
  rewrite count_cons. simpl.
  induction m as [|[k child] m' IHm]; [reflexivity|].
  inversion IH as [|? ? Hc Hm']; subst. simpl in Hc.
  specialize (IHm Hm').
  simpl. rewrite count_cons. simpl.
  rewrite count_app in IHm. rewrite !count_app.
  rewrite count_occ_app, count_occ_flat_map_cons, Hc.
  unfold addr in *.
  destruct (N.eqb (address child) a); lia.
Qed.

(** The destructor of an object runs as often as its address occurs in the
    destroyed tree. *)
Lemma count_destructor_destroy (a : addr) (c : Component) :
  count (is_destructor a) (destroy c) = count_occ N.eq_dec (addresses c) a.
Proof.
  induction c as [a0 t p m v IH] using Component_ind.
  rewrite count_occ_flat_map_cons.
  unfold descendants. simpl.
  rewrite count_cons. simpl. f_equal.
  induction m as [|[k child] m' IHm]; [reflexivity|].
  inversion IH as [|? ? Hc Hm']; subst. simpl in Hc.
  specialize (IHm Hm').
  simpl. rewrite count_cons. simpl.
  rewrite count_app in IHm. rewrite !count_app.
  rewrite count_occ_app, Hc. unfold addr in *. lia.
Qed.

(** The parent side hooks never run during a destruction. *)
Lemma count_parent_hooks_destroy (c : Component) :
  count is_component_detached (destroy c) = 0%nat
  /\ count is_component_attached (destroy c) = 0%nat.
Proof.
  induction c as [a0 t p m v IH] using Component_ind.
  simpl. rewrite !count_cons. simpl.
  induction m as [|[k child] m' IHm]; [split; reflexivity|].
  inversion IH as [|? ? Hc Hm']; subst. simpl in Hc.
  specialize (IHm Hm').
  simpl. rewrite !count_cons. simpl.
  rewrite !count_app in IHm. rewrite !count_app.
  destruct Hc as [-> ->]. lia.
Qed.

Lemma NoDup_flat_map_In {A B : Type} (f : A -> list B) (l : list A) (x : A) :
  NoDup (flat_map f l) -> In x l -> NoDup (f x).
Proof.
  induction l as [|y l' IH]; simpl; [intros _ []|].
  intros H [->|Hin].
  - eapply NoDup_app_remove_r. exact H.
  - apply IH; [|assumption]. eapply NoDup_app_remove_l. exact H.
Qed.

Lemma distinct_addresses_child hash this c :
  distinct_addresses this ->
  find hash (SubComponents this) = Some c ->
  distinct_addresses c.
Proof.
  unfold distinct_addresses. intros H Hf.
  destruct this as [a t p m v]. simpl in *.
  inversion H as [|? ? _ Hm]; subst.
  apply find_In in Hf.
  exact (NoDup_flat_map_In
           (fun kv : size_t * Component => let (_, child) := kv in
                                           addresses child)
           m (hash, c) Hm Hf).
Qed.

Lemma address_not_descendant c :
  distinct_addresses c ->
  count_occ N.eq_dec (descendants c) (address c) = 0%nat.
Proof.
  unfold distinct_addresses, descendants.
  destruct c as [a t p m v]. simpl.
  intros H. inversion H as [|? ? Hn _]; subst.
  now apply count_occ_not_In.
Qed.

Lemma address_once c :
  distinct_addresses c ->
  count_occ N.eq_dec (addresses c) (address c) = 1%nat.
Proof.
  intros H. rewrite count_occ_flat_map_cons, N.eqb_refl.
  now rewrite address_not_descendant.
Qed.

Lemma In_addresses_child k child c :
  In (k, child) (SubComponents c) -> In (address child) (descendants c).
Proof.
  unfold descendants. destruct c as [a t p m v]. simpl.
  intros H. apply in_flat_map. exists (k, child). split; [assumption|].
  destruct child; simpl. now left.
Qed.

Lemma before_app_l e1 e2 l l' : before e1 e2 l -> before e1 e2 (l' ++ l).
Proof.
  intros (l1 & l2 & l3 & ->). exists (l' ++ l1), l2, l3.
  now rewrite <- app_assoc.
Qed.

Lemma before_cons e1 e2 e l : before e1 e2 l -> before e1 e2 (e :: l).
Proof. intros H. exact (before_app_l e1 e2 l [e] H). Qed.

Lemma before_head e1 e2 l : In e2 l -> before e1 e2 (e1 :: l).
Proof.
  intros H. apply in_split in H as (l2 & l3 & ->).
  now exists [], l2, l3.
Qed.

(** In a destruction, every child is told it is detached before its own
    destructor runs. *)
Lemma destroy_child_order k child c :
  In (k, child) (SubComponents c) ->
  before (EvDetachedFromComponent (address child) (Parent child))
         (EvDestructor (address child)) (destroy c).
Proof.
  destruct c as [a t p m v]. simpl. intros Hin.
  apply before_cons.
  apply in_split in Hin as (m1 & m2 & ->).
  rewrite map_app, flat_map_app. simpl.
  rewrite <- app_assoc. apply before_app_l. simpl.
  apply before_head. apply in_or_app. right.
  apply in_or_app. right. apply in_or_app. left.
  destruct child; simpl. now left.
Qed.

(** ** The claims about the member templates *)

Section Properties.

Context {RTTI : TypeInfo}.

Lemma is_base_of_refl T : is_base_of T T = true.
Proof. unfold is_base_of. now rewrite Nat.eqb_refl. Qed.

Lemma GetComponent_eq T this :
  GetComponent T this =
  Ok (dynamic_cast T (find (hash_code T) (SubComponents this))) this [].
Proof.
  unfold GetComponent, bind. rewrite GetSubComponent_eq.
  reflexivity.
Qed.

Lemma holds_child_find T this c :
  holds_child T this c <->
  find (hash_code T) (SubComponents this) = Some c
  /\ is_base_of T (dynamic_type c) = true.
Proof.
  unfold holds_child. rewrite GetComponent_eq.
  unfold dynamic_cast.
  destruct (find (hash_code T) (SubComponents this)) as [c0|].
  - destruct (is_base_of T (dynamic_type c0)) eqn:E.
    + split.
      * intros [= ->]. now split.
      * intros [[= ->] _]. reflexivity.
    + split; [discriminate|]. intros [[= ->] H]. congruence.
  - split; [discriminate|]. intros [[=] _].
Qed.

Lemma SeparateComponent_present T this c :
  holds_child T this c ->
  SeparateComponent T this =
  Ok (Some c)
     (set_SubComponents (erase (hash_code T) (SubComponents this)) this) [].
Proof.
  intros H. apply holds_child_find in H as [Hf Hb].
  unfold SeparateComponent, bind.
  rewrite (SeparateSubComponent_present _ _ _ Hf).
  cbn. rewrite Hb. reflexivity.
Qed.

Lemma AdoptComponent_replace T n this old :
  find (hash_code T) (SubComponents this) = Some old ->
  is_base_of T (dynamic_type n) = true ->
  AdoptComponent T (Some n) this =
  Ok (Some (set_Parent (Some (address this)) n))
     (set_SubComponents
        (assign (hash_code T) (set_Parent (Some (address this)) n)
           (SubComponents this)) this)
     (replaced_log this old ++ attached_log this n).
Proof.
  intros Hf Hb. unfold AdoptComponent, bind.
  rewrite (AddSubComponent_replace _ n _ _ Hf).
  cbn. rewrite Hb, app_nil_r. reflexivity.
Qed.

Lemma AdoptComponent_insert T n this :
  find (hash_code T) (SubComponents this) = None ->
  is_base_of T (dynamic_type n) = true ->
  AdoptComponent T (Some n) this =
  Ok (Some (set_Parent (Some (address this)) n))
     (set_SubComponents
        ((hash_code T, set_Parent (Some (address this)) n)
         :: SubComponents this) this)
     (attached_log this n).
Proof.
  intros Hf Hb. unfold AdoptComponent, bind.
  rewrite (AddSubComponent_insert _ n _ Hf).
  cbn. rewrite Hb. reflexivity.
Qed.

(** After an attach the slot holds the attached object. *)
Lemma AdoptComponent_holds T n this r this' log :
  is_base_of T (dynamic_type n) = true ->
  AdoptComponent T (Some n) this = Ok r this' log ->
  r = Some (set_Parent (Some (address this)) n)
  /\ holds_child T this' (set_Parent (Some (address this)) n)
  /\ address this' = address this.
Proof.
  intros Hb.
  destruct (find (hash_code T) (SubComponents this)) as [old|] eqn:Hf.
  - rewrite (AdoptComponent_replace _ _ _ _ Hf Hb). intros [= <- <- <-].
    split; [reflexivity|]. split; [|reflexivity].
    apply holds_child_find. split; [|exact Hb].
    cbn. eapply find_assign. exact Hf.
  - rewrite (AdoptComponent_insert _ _ _ Hf Hb). intros [= <- <- <-].
    split; [reflexivity|]. split; [|reflexivity].
    apply holds_child_find. split; [|exact Hb].
    cbn. now rewrite N.eqb_refl.
Qed.

Lemma AddComponent_Adopt T a arguments this :
  AddComponent T a arguments this =
  AdoptComponent T (make_unique T a arguments) this.
Proof. reflexivity. Qed.

Lemma count_detached_replace this old n :
  distinct_addresses old ->
  count (is_detached_from (address old))
    (replaced_log this old ++ attached_log this n) = 1%nat.
Proof.
  intros H. unfold replaced_log, attached_log.
  rewrite !count_app, count_detached_destroy, (address_not_descendant _ H).
  unfold count. simpl. now rewrite N.eqb_refl.
Qed.

Lemma count_destructor_replace this old n :
  distinct_addresses old ->
  count (is_destructor (address old))
    (replaced_log this old ++ attached_log this n) = 1%nat.
Proof.
  intros H. unfold replaced_log, attached_log.
  rewrite !count_app, count_destructor_destroy, (address_once _ H).
  reflexivity.
Qed.

(** C1 (the source deviates from the claim): [SeparateComponent<T>()] on a
    component holding a child keyed [T] removes the slot and hands the live
    child to the caller, no destructor runs, but no hook is called at all,
    whereas [RemoveComponent<T>()] on the same component calls the child's
    [OnDetachedFromComponent] and then the parent's [OnComponentDetached]. *)
Theorem separate_fires_no_hook T this c :
  holds_child T this c ->
  SeparateComponent T this =
  Ok (Some c)
     (set_SubComponents (erase (hash_code T) (SubComponents this)) this) []
  /\ RemoveComponent T this =
     Ok tt
        (set_SubComponents (erase (hash_code T) (SubComponents this)) this)
        ([EvDetachedFromComponent (address c) (Parent c);
          EvComponentDetached (address this) (address c) (Parent c)]
         ++ destroy c).
Proof.
  intros H. split.
  - now apply SeparateComponent_present.
  - apply holds_child_find in H as [Hf _].
    unfold RemoveComponent. now apply RemoveSubComponent_present.
Qed.

(** C2 (amended): [SeparateComponent<T>()] on a component holding a child
    keyed [T] returns that child as it is, so [GetParent()] of the returned
    value is what it was while attached; for a child that was attached by
    [AdoptComponent<T>] it is still the address of the former parent.
    Nothing clears [Parent]. *)
Theorem separate_keeps_parent T this c n :
  holds_child T this c ->
  is_base_of T (dynamic_type n) = true ->
  (exists x this',
      SeparateComponent T this = Ok (Some x) this' []
      /\ x = c /\ GetParent x = GetParent c)
  /\ (exists x this' log,
         (_ <- AdoptComponent T (Some n) ;; SeparateComponent T) this
         = Ok (Some x) this' log
         /\ GetParent x = Some (address this)).
Proof.
  intros H Hb. split.
  - exists c. eexists. split; [exact (SeparateComponent_present _ _ _ H)|].
    now split.
  - unfold bind at 1.
    destruct (AdoptComponent T (Some n) this) as [r this1 log1|log1] eqn:E.
    + destruct (AdoptComponent_holds _ _ _ _ _ _ Hb E) as (-> & Hh & _).
      rewrite (SeparateComponent_present _ _ _ Hh).
      eexists. eexists. eexists. split; reflexivity.
    + exfalso.
      destruct (find (hash_code T) (SubComponents this)) as [old|] eqn:Hf.
      * rewrite (AdoptComponent_replace _ _ _ _ Hf Hb) in E. discriminate.
      * rewrite (AdoptComponent_insert _ _ _ Hf Hb) in E. discriminate.
Qed.

(** C4: when the slot of [T] is occupied by [old], [AdoptComponent<T>] of an
    owned object and [AddComponent<T>] of a new one call the parent's
    [OnComponentDetached] on [old], then [old]'s [OnDetachedFromComponent],
    then overwrite the slot, which destroys [old]; then the parent's
    [OnComponentAttached] and the new child's [OnAttachedToComponent] run in
    this order, both seeing the new [Parent].  Afterwards
    [GetComponent<T>()] is the new instance, and [old]'s detach hook ran
    exactly once, before the new child's attach hook. *)
Theorem replace_firing_order T x a arguments this old :
  find (hash_code T) (SubComponents this) = Some old ->
  distinct_addresses this ->
  is_base_of T (dynamic_type x) = true ->
  forall component,
    component = Some x \/ component = make_unique T a arguments ->
    exists n this',
      component = Some n
      /\ let n' := set_Parent (Some (address this)) n in
         let log :=
           [EvComponentDetached (address this) (address old) (Parent old);
            EvDetachedFromComponent (address old) (Parent old)]
           ++ destroy old
           ++ [EvComponentAttached (address this) (address n)
                 (Some (address this));
               EvAttachedToComponent (address n) (Some (address this))] in
         AdoptComponent T component this = Ok (Some n') this' log
         /\ (component = make_unique T a arguments ->
             AddComponent T a arguments this = Ok (Some n') this' log)
         /\ find (hash_code T) (SubComponents this') = Some n'
         /\ GetComponent T this' = Ok (Some n') this' []
         /\ count (is_detached_from (address old)) log = 1%nat
         /\ count (is_destructor (address old)) log = 1%nat
         /\ before (EvDetachedFromComponent (address old) (Parent old))
                   (EvAttachedToComponent (address n) (Some (address this)))
                   log.
Proof.
  intros Hf Hd Hx component Hc.
  assert (exists n, component = Some n
                    /\ is_base_of T (dynamic_type n) = true)
    as (n & -> & Hb).
  { destruct Hc as [->| ->].
    - now exists x.
    - eexists. split; [reflexivity|]. simpl. apply is_base_of_refl. }
  pose proof (distinct_addresses_child _ _ _ Hd Hf) as Hold.
  exists n. eexists. split; [reflexivity|]. cbv zeta.
  assert (Hrun := AdoptComponent_replace _ _ _ _ Hf Hb).
  unfold replaced_log, attached_log in Hrun.
  rewrite <- app_assoc in Hrun.
  split; [exact Hrun|].
  split.
  { intros E. rewrite AddComponent_Adopt, <- E. exact Hrun. }
  split.
  { cbn. eapply find_assign. exact Hf. }
  split.
  { apply holds_child_find. split; [|exact Hb].
    cbn. eapply find_assign. exact Hf. }
  split.
  { rewrite app_assoc. apply (count_detached_replace this old n Hold). }
  split.
  { rewrite app_assoc. apply (count_destructor_replace this old n Hold). }
  eexists [_], (destroy old ++ [_]), []. cbn.
  rewrite <- app_assoc. reflexivity.
Qed.

(** C5 (the source deviates from the claim): the round trip
    [x = SeparateComponent<T>(); AdoptComponent<T>(move(x))] on a component
    holding a child keyed [T] puts the same object back, with the address,
    class, members and sub components it had, and [GetComponent<T>()]
    returns it; the attach hooks run once each, but no detach hook runs. *)
Theorem separate_adopt_round_trip T this c :
  holds_child T this c ->
  unique_keys this ->
  exists this',
    let c' := set_Parent (Some (address this)) c in
    (x <- SeparateComponent T ;; AdoptComponent T x) this
    = Ok (Some c') this'
         [EvComponentAttached (address this) (address c)
            (Some (address this));
          EvAttachedToComponent (address c) (Some (address this))]
    /\ GetComponent T this' = Ok (Some c') this' []
    /\ address c' = address c
    /\ dynamic_type c' = dynamic_type c
    /\ Members c' = Members c
    /\ SubComponents c' = SubComponents c
    /\ (Parent c = Some (address this) -> c' = c).
Proof.
  intros H Hk. pose proof H as H0.
  apply holds_child_find in H0 as [Hf Hb].
  eexists. cbv zeta.
  unfold bind at 1. rewrite (SeparateComponent_present _ _ _ H).
  assert (Hnone : find (hash_code T)
                    (SubComponents
                       (set_SubComponents
                          (erase (hash_code T) (SubComponents this)) this))
                  = None).
  { cbn. now apply find_erase. }
  rewrite (AdoptComponent_insert _ _ _ Hnone Hb). cbn.
  split; [reflexivity|].
  split.
  { apply holds_child_find. split; [|exact Hb]. cbn.
    now rewrite N.eqb_refl. }
  repeat (split; [reflexivity|]).
  intros Hp. destruct c; cbn in *. now rewrite Hp.
Qed.

Lemma destroy_children c :
  destroy c =
  EvDestructor (address c)
  :: List.map (fun child =>
                 EvDetachedFromComponent (address child) (Parent child))
       (children c)
  ++ flat_map destroy (children c).
Proof.
  destruct c as [a t p m v]. unfold children. cbn [destroy address].
  f_equal. cbn [SubComponents]. f_equal.
  - rewrite map_map. apply map_ext. now intros [k child].
  - induction m as [|[k child] m' IH]; [reflexivity|].
    cbn [flat_map List.map snd]. now rewrite IH.
Qed.

(** C6: destroying a component calls [OnDetachedFromComponent] exactly once
    on every direct child, whatever the order of the map, and calls no
    [OnComponentDetached]; after these calls every child is destroyed
    through the map, once, which does the same for its own children: every
    object below the destroyed one gets the hook exactly once, and its
    destructor runs exactly once, after its hook. *)
Theorem destruction_propagation c :
  distinct_addresses c ->
  (forall k child,
      In (k, child) (SubComponents c) ->
      count (is_detached_from (address child)) (destroy c) = 1%nat
      /\ count (is_destructor (address child)) (destroy c) = 1%nat
      /\ before (EvDetachedFromComponent (address child) (Parent child))
                (EvDestructor (address child)) (destroy c))
  /\ (forall d,
        In d (descendants c) ->
        count (is_detached_from d) (destroy c) = 1%nat
        /\ count (is_destructor d) (destroy c) = 1%nat)
  /\ count (is_detached_from (address c)) (destroy c) = 0%nat
  /\ count is_component_detached (destroy c) = 0%nat
  /\ destroy c =
     EvDestructor (address c)
     :: List.map (fun child =>
                    EvDetachedFromComponent (address child) (Parent child))
          (children c)
     ++ flat_map destroy (children c).
Proof.
  intros Hd.
  assert (Hdesc : forall d,
             In d (descendants c) ->
             count (is_detached_from d) (destroy c) = 1%nat
             /\ count (is_destructor d) (destroy c) = 1%nat).
  { intros d Hin. unfold distinct_addresses in Hd.
    rewrite count_detached_destroy, count_destructor_destroy.
    assert (Hin' : In d (addresses c)).
    { unfold descendants in Hin. destruct c; simpl in *. now right. }
    assert (Hnd : NoDup (descendants c)).
    { unfold descendants. destruct c; simpl in *. now inversion Hd. }
    split.
    - now apply (proj1 (NoDup_count_occ' N.eq_dec (descendants c)) Hnd).
    - now apply (proj1 (NoDup_count_occ' N.eq_dec (addresses c)) Hd). }
  split.
  { intros k child Hin.
    destruct (Hdesc _ (In_addresses_child _ _ _ Hin)) as [H1 H2].
    split; [exact H1|]. split; [exact H2|].
    eapply destroy_child_order. exact Hin. }
  split; [exact Hdesc|].
  split.
  { rewrite count_detached_destroy. now apply address_not_descendant. }
  split.
  { apply count_parent_hooks_destroy. }
  apply destroy_children.
Qed.

(** C7: [SeparateComponent<T>()] returns null when no child keyed [T] is
    present, and leaves the component as it is when the key is absent; on a
    component holding a child keyed [T], two calls in a row return the
    child and then null. *)
Theorem separation_idempotent T this :
  (find (hash_code T) (SubComponents this) = None ->
   SeparateComponent T this = Ok None this [])
  /\ (holds_no_child T this ->
      exists this', SeparateComponent T this = Ok None this' [])
  /\ (forall c,
        holds_child T this c ->
        unique_keys this ->
        exists this',
          (x <- SeparateComponent T ;;
           y <- SeparateComponent T ;;
           ret (x, y)) this
          = Ok (Some c, None) this' []).
Proof.
  split; [|split].
  - intros Hf. unfold SeparateComponent, bind.
    now rewrite (SeparateSubComponent_absent _ _ Hf).
  - unfold holds_no_child. rewrite GetComponent_eq.
    unfold SeparateComponent, bind.
    destruct (find (hash_code T) (SubComponents this)) as [c|] eqn:Hf.
    + rewrite (SeparateSubComponent_present _ _ _ Hf). cbn.
      destruct (is_base_of T (dynamic_type c)); [discriminate|].
      intros _. eexists. reflexivity.
    + rewrite (SeparateSubComponent_absent _ _ Hf). cbn.
      intros _. eexists. reflexivity.
  - intros c H Hk.
    unfold bind at 1. rewrite (SeparateComponent_present _ _ _ H).
    unfold bind at 1. unfold SeparateComponent at 1. unfold bind at 1.
    rewrite SeparateSubComponent_absent.
    + cbn. eexists. reflexivity.
    + cbn. now apply find_erase.
Qed.

(** C8: [RemoveComponent<T>()] on a component without a child keyed [T]
    returns normally, calls no hook and leaves the component unchanged; with
    a child keyed [T] it calls the child's [OnDetachedFromComponent], then
    the parent's [OnComponentDetached], then erases the slot, which destroys
    the child. *)
Theorem remove_absent_is_noop T this :
  (find (hash_code T) (SubComponents this) = None ->
   RemoveComponent T this = Ok tt this [])
  /\ (forall c,
        find (hash_code T) (SubComponents this) = Some c ->
        RemoveComponent T this =
        Ok tt
           (set_SubComponents (erase (hash_code T) (SubComponents this))
              this)
           ([EvDetachedFromComponent (address c) (Parent c);
             EvComponentDetached (address this) (address c) (Parent c)]
            ++ destroy c)
        /\ hd_error (destroy c) = Some (EvDestructor (address c))).
Proof.
  split.
  - intros Hf. unfold RemoveComponent.
    now apply RemoveSubComponent_absent.
  - intros c Hf. split.
    + unfold RemoveComponent. now apply RemoveSubComponent_present.
    + now destruct c.
Qed.

(** Attaching an object never faults, and the slot then holds it. *)
Lemma AdoptComponent_total T n this :
  is_base_of T (dynamic_type n) = true ->
  exists this' log,
    AdoptComponent T (Some n) this
    = Ok (Some (set_Parent (Some (address this)) n)) this' log
    /\ holds_child T this' (set_Parent (Some (address this)) n).
Proof.
  intros Hb.
  destruct (find (hash_code T) (SubComponents this)) as [old|] eqn:Hf.
  - pose proof (AdoptComponent_replace _ _ _ _ Hf Hb) as E.
    eexists. eexists. split; [exact E|].
    now destruct (AdoptComponent_holds _ _ _ _ _ _ Hb E) as (_ & Hh & _).
  - pose proof (AdoptComponent_insert _ _ _ Hf Hb) as E.
    eexists. eexists. split; [exact E|].
    now destruct (AdoptComponent_holds _ _ _ _ _ _ Hb E) as (_ & Hh & _).
Qed.

Lemma AcquireComponent_present T a this c :
  holds_child T this c -> AcquireComponent T a this = Ok (Some c) this [].
Proof.
  intros H. unfold AcquireComponent, bind. rewrite H. reflexivity.
Qed.

Lemma AcquireComponent_absent T a this :
  holds_no_child T this ->
  AcquireComponent T a this = AddComponent T a [] this.
Proof.
  intros H. unfold AcquireComponent, bind. rewrite H.
  now destruct (AddComponent T a [] this).
Qed.

(** C9: [AcquireComponent<T>()] returns the child keyed [T] when there is
    one, without any other effect; otherwise it is [AddComponent<T>()]
    without arguments, and returns the object that call constructed and
    attached.  Two calls in a row return the same instance. *)
Theorem acquire_idempotent T a1 a2 this :
  (forall c,
      holds_child T this c ->
      AcquireComponent T a1 this = Ok (Some c) this [])
  /\ (holds_no_child T this ->
      AcquireComponent T a1 this = AddComponent T a1 [] this
      /\ exists this' log,
           let n :=
             mkComponent a1 T (Some (address this)) [] (construct T []) in
           AcquireComponent T a1 this = Ok (Some n) this' log
           /\ holds_child T this' n)
  /\ (exists r this' log,
         (x <- AcquireComponent T a1 ;;
          y <- AcquireComponent T a2 ;;
          ret (x, y)) this
         = Ok (Some r, Some r) this' log).
Proof.
  assert (Habsent : holds_no_child T this ->
            exists this' log,
              let n :=
                mkComponent a1 T (Some (address this)) []
                  (construct T []) in
              AcquireComponent T a1 this = Ok (Some n) this' log
              /\ holds_child T this' n).
  { intros H. rewrite (AcquireComponent_absent _ a1 _ H).
    rewrite AddComponent_Adopt. unfold make_unique.
    apply (AdoptComponent_total T
             (mkComponent a1 T None [] (construct T [])) this).
    apply is_base_of_refl. }
  split; [|split].
  - intros c H. now apply AcquireComponent_present.
  - intros H. split; [now apply AcquireComponent_absent|].
    now apply Habsent.
  - destruct (dynamic_cast T (find (hash_code T) (SubComponents this)))
      as [c|] eqn:E.
    + assert (H : holds_child T this c).
      { unfold holds_child. now rewrite GetComponent_eq, E. }
      exists c, this, [].
      unfold bind at 1. rewrite (AcquireComponent_present _ a1 _ _ H).
      unfold bind at 1. rewrite (AcquireComponent_present _ a2 _ _ H).
      reflexivity.
    + assert (H : holds_no_child T this).
      { unfold holds_no_child. now rewrite GetComponent_eq, E. }
      destruct (Habsent H) as (this' & log & E1 & Hh). cbv zeta in *.
      eexists. exists this', (log ++ []).
      unfold bind at 1. rewrite E1.
      unfold bind at 1. rewrite (AcquireComponent_present _ a2 _ _ Hh).
      cbn. rewrite !app_nil_r. reflexivity.
Qed.

(** C10: [AddSubComponent] dereferences the pointer it was given without a
    null check.  With an owning pointer the call completes, and so does
    [AdoptComponent]; with a null one it reaches the null dereference at
    [component_pointer->Parent], after the hooks of the replace branch if
    the slot was occupied. *)
Theorem adopt_null_dereferences T hash this :
  AddSubComponent hash None this =
  NullPointerDereference
    match find hash (SubComponents this) with
    | Some old => replaced_log this old
    | None => []
    end
  /\ (forall c,
        exists this' log,
          AddSubComponent hash (Some c) this
          = Ok (set_Parent (Some (address this)) c) this' log)
  /\ (exists log, AdoptComponent T None this = NullPointerDereference log)
  /\ (forall c,
        exists r this' log, AdoptComponent T (Some c) this = Ok r this' log).
Proof.
  assert (Hsome : forall h c,
             exists this' log,
               AddSubComponent h (Some c) this
               = Ok (set_Parent (Some (address this)) c) this' log).
  { intros h c.
    destruct (find h (SubComponents this)) as [old|] eqn:Hf.
    - rewrite (AddSubComponent_replace _ c _ _ Hf).
      eexists. eexists. reflexivity.
    - rewrite (AddSubComponent_insert _ c _ Hf).
      eexists. eexists. reflexivity. }
  split; [apply AddSubComponent_null|].
  split; [apply Hsome|].
  split.
  - unfold AdoptComponent, bind. rewrite AddSubComponent_null.
    eexists. reflexivity.
  - intros c. unfold AdoptComponent, bind.
    destruct (Hsome (hash_code T) c) as (this' & log & ->). cbn.
    eexists. eexists. eexists. reflexivity.
Qed.

End Properties.

(** ** Further properties of the registry *)

Lemma find_split hash m c :
  find hash m = Some c ->
  exists m1 m2, m = m1 ++ (hash, c) :: m2 /\ find hash m1 = None.
Proof.
  induction m as [|[k c0] m' IH]; simpl; [discriminate|].
  destruct (N.eqb k hash) eqn:E.
  - apply N.eqb_eq in E. subst. intros [= ->]. now exists [], m'.
  - intros H. destruct (IH H) as (m1 & m2 & -> & Hn).
    exists ((k, c0) :: m1), m2. split; [reflexivity|]. simpl. now rewrite E.
Qed.

Lemma erase_split hash m1 c m2 :
  find hash m1 = None -> erase hash (m1 ++ (hash, c) :: m2) = m1 ++ m2.
Proof.
  induction m1 as [|[k c0] m1 IH]; simpl.
  - now rewrite N.eqb_refl.
  - destruct (N.eqb k hash); [discriminate|]. intros H. now rewrite IH.
Qed.

Lemma assign_split hash m1 c c' m2 :
  find hash m1 = None ->
  assign hash c' (m1 ++ (hash, c) :: m2) = m1 ++ (hash, c') :: m2.
Proof.
  induction m1 as [|[k c0] m1 IH]; simpl.
  - now rewrite N.eqb_refl.
  - destruct (N.eqb k hash); [discriminate|]. intros H. now rewrite IH.
Qed.

Lemma find_other_erase hash hash' m :
  hash' <> hash -> find hash' (erase hash m) = find hash' m.
Proof.
  intros Hne. induction m as [|[k c0] m' IH]; simpl; [reflexivity|].
  destruct (N.eqb k hash) eqn:E; simpl.
  - apply N.eqb_eq in E. subst k.
    apply N.eqb_neq in Hne. rewrite N.eqb_sym in Hne. now rewrite Hne.
  - now rewrite IH.
Qed.

Lemma find_other_assign hash hash' c m :
  hash' <> hash -> find hash' (assign hash c m) = find hash' m.
Proof.
  intros Hne. induction m as [|[k c0] m' IH]; simpl; [reflexivity|].
  destruct (N.eqb k hash) eqn:E; simpl.
  - apply N.eqb_eq in E. subst k.
    apply N.eqb_neq in Hne. rewrite N.eqb_sym in Hne. now rewrite Hne.
  - now rewrite IH.
Qed.

Lemma find_other_cons hash hash' c m :
  hash' <> hash -> find hash' ((hash, c) :: m) = find hash' m.
Proof.
  intros Hne. simpl.
  apply N.eqb_neq in Hne. rewrite N.eqb_sym in Hne. now rewrite Hne.
Qed.

Lemma length_assign hash c m : length (assign hash c m) = length m.
Proof.
  induction m as [|[k c0] m' IH]; simpl; [reflexivity|].
  destruct (N.eqb k hash); simpl; [reflexivity|]. now rewrite IH.
Qed.

Lemma length_erase hash m c :
  find hash m = Some c -> S (length (erase hash m)) = length m.
Proof.
  induction m as [|[k c0] m' IH]; simpl; [discriminate|].
  destruct (N.eqb k hash); simpl; [reflexivity|].
  intros H. now rewrite IH.
Qed.

Lemma In_erase hash m kv : In kv (erase hash m) -> In kv m.
Proof.
  induction m as [|[k c0] m' IH]; simpl; [tauto|].
  destruct (N.eqb k hash); simpl; tauto.
Qed.

Lemma In_assign hash c m kv :
  In kv (assign hash c m) -> kv = (hash, c) \/ In kv m.
Proof.
  induction m as [|[k c0] m' IH]; simpl; [tauto|].
  destruct (N.eqb k hash) eqn:E; simpl.
  - apply N.eqb_eq in E. subst k. intros [<-|H]; auto.
  - tauto.
Qed.

(** What a call of [AddSubComponent] with an owning pointer leaves. *)
Lemma AddSubComponent_Some hash c this :
  AddSubComponent hash (Some c) this =
  Ok (set_Parent (Some (address this)) c)
     (set_SubComponents
        match find hash (SubComponents this) with
        | Some _ =>
            assign hash (set_Parent (Some (address this)) c)
              (SubComponents this)
        | None =>
            (hash, set_Parent (Some (address this)) c) :: SubComponents this
        end this)
     match find hash (SubComponents this) with
     | Some old => replaced_log this old ++ attached_log this c
     | None => attached_log this c
     end.
Proof.
  destruct (find hash (SubComponents this)) as [old|] eqn:Hf.
  - now apply AddSubComponent_replace.
  - now apply AddSubComponent_insert.
Qed.

Lemma RemoveSubComponent_eq hash this :
  RemoveSubComponent hash this =
  match find hash (SubComponents this) with
  | Some c =>
      Ok tt (set_SubComponents (erase hash (SubComponents this)) this)
         ([EvDetachedFromComponent (address c) (Parent c);
           EvComponentDetached (address this) (address c) (Parent c)]
          ++ destroy c)
  | None => Ok tt this []
  end.
Proof.
  destruct (find hash (SubComponents this)) as [c|] eqn:Hf.
  - now apply RemoveSubComponent_present.
  - now apply RemoveSubComponent_absent.
Qed.

Lemma SeparateSubComponent_eq hash this :
  SeparateSubComponent hash this =
  match find hash (SubComponents this) with
  | Some c =>
      Ok (Some c)
         (set_SubComponents (erase hash (SubComponents this)) this) []
  | None => Ok None this []
  end.
Proof.
  destruct (find hash (SubComponents this)) as [c|] eqn:Hf.
  - now apply SeparateSubComponent_present.
  - now apply SeparateSubComponent_absent.
Qed.

(** X1: a call on one key leaves every other slot alone.  After
    [AddSubComponent], [RemoveSubComponent] or [SeparateSubComponent] on
    [hash], a lookup of any other key finds what it found before. *)
Theorem other_slots_untouched hash hash' c this :
  hash' <> hash ->
  (exists r this' log,
      AddSubComponent hash (Some c) this = Ok r this' log
      /\ find hash' (SubComponents this') = find hash' (SubComponents this))
  /\ (exists this' log,
         RemoveSubComponent hash this = Ok tt this' log
         /\ find hash' (SubComponents this')
            = find hash' (SubComponents this))
  /\ (exists r this',
         SeparateSubComponent hash this = Ok r this' []
         /\ find hash' (SubComponents this')
            = find hash' (SubComponents this)).
Proof.
  intros Hne. split; [|split].
  - rewrite AddSubComponent_Some. eexists. eexists. eexists.
    split; [reflexivity|]. cbn.
    destruct (find hash (SubComponents this)).
    + now apply find_other_assign.
    + now apply find_other_cons.
  - rewrite RemoveSubComponent_eq.
    destruct (find hash (SubComponents this)).
    + eexists. eexists. split; [reflexivity|]. cbn.
      now apply find_other_erase.
    + eexists. eexists. split; reflexivity.
  - rewrite SeparateSubComponent_eq.
    destruct (find hash (SubComponents this)).
    + eexists. eexists. split; [reflexivity|]. cbn.
      now apply find_other_erase.
    + eexists. eexists. split; reflexivity.
Qed.

(** X2: the number of entries [GetComponents()] shows.  [AddSubComponent]
    adds one entry when the key was absent and none when it replaces;
    [RemoveSubComponent] and [SeparateSubComponent] take one entry away when
    the key was present and none otherwise. *)
Theorem registry_size hash c this :
  let present :=
    match find hash (SubComponents this) with
    | Some _ => 1%nat
    | None => 0%nat
    end in
  (exists r this' log,
      AddSubComponent hash (Some c) this = Ok r this' log
      /\ (length (GetComponents this') + present
          = length (GetComponents this) + 1)%nat)
  /\ (exists this' log,
         RemoveSubComponent hash this = Ok tt this' log
         /\ (length (GetComponents this') + present
             = length (GetComponents this))%nat)
  /\ (exists r this',
         SeparateSubComponent hash this = Ok r this' []
         /\ (length (GetComponents this') + present
             = length (GetComponents this))%nat).
Proof.
  cbv zeta. unfold GetComponents. split; [|split].
  - rewrite AddSubComponent_Some. eexists. eexists. eexists.
    split; [reflexivity|]. cbn.
    destruct (find hash (SubComponents this)).
    + rewrite length_assign. lia.
    + simpl. lia.
  - rewrite RemoveSubComponent_eq.
    destruct (find hash (SubComponents this)) eqn:Hf.
    + eexists. eexists. split; [reflexivity|]. cbn.
      pose proof (length_erase _ _ _ Hf). lia.
    + eexists. eexists. split; [reflexivity|]. lia.
  - rewrite SeparateSubComponent_eq.
    destruct (find hash (SubComponents this)) eqn:Hf.
    + eexists. eexists. split; [reflexivity|]. cbn.
      pose proof (length_erase _ _ _ Hf). lia.
    + eexists. eexists. split; [reflexivity|]. lia.
Qed.

(** X3: the registry never holds two entries under one key.  When the keys
    [GetComponents()] shows are pairwise distinct before a call of
    [AddSubComponent], [RemoveSubComponent] or [SeparateSubComponent], they
    are pairwise distinct after it. *)
Theorem keys_stay_unique hash c this :
  NoDup (keys (GetComponents this)) ->
  (exists r this' log,
      AddSubComponent hash (Some c) this = Ok r this' log
      /\ NoDup (keys (GetComponents this')))
  /\ (exists this' log,
         RemoveSubComponent hash this = Ok tt this' log
         /\ NoDup (keys (GetComponents this')))
  /\ (exists r this',
         SeparateSubComponent hash this = Ok r this' []
         /\ NoDup (keys (GetComponents this'))).
Proof.
  unfold GetComponents. intros Hk. split; [|split].
  - rewrite AddSubComponent_Some. eexists. eexists. eexists.
    split; [reflexivity|]. cbn.
    destruct (find hash (SubComponents this)) eqn:Hf.
    + now rewrite keys_assign.
    + constructor; [|exact Hk]. now apply find_None_keys.
  - rewrite RemoveSubComponent_eq.
    destruct (find hash (SubComponents this)).
    + eexists. eexists. split; [reflexivity|]. cbn.
      now apply NoDup_keys_erase.
    + eexists. eexists. split; [reflexivity|exact Hk].
  - rewrite SeparateSubComponent_eq.
    destruct (find hash (SubComponents this)).
    + eexists. eexists. split; [reflexivity|]. cbn.
      now apply NoDup_keys_erase.
    + eexists. eexists. split; [reflexivity|exact Hk].
Qed.

(** X4: the back-references stay right.  When every sub component has the
    owning component as [Parent], this still holds after
    [AddSubComponent], which sets the [Parent] of the object it attaches,
    and after [RemoveSubComponent] and [SeparateSubComponent]. *)
Theorem parents_stay_right hash c this :
  children_point_back this ->
  (exists r this' log,
      AddSubComponent hash (Some c) this = Ok r this' log
      /\ GetParent r = Some (address this')
      /\ children_point_back this')
  /\ (exists this' log,
         RemoveSubComponent hash this = Ok tt this' log
         /\ children_point_back this')
  /\ (exists r this',
         SeparateSubComponent hash this = Ok r this' []
         /\ children_point_back this').
Proof.
  unfold children_point_back. intros Hp. split; [|split].
  - rewrite AddSubComponent_Some. eexists. eexists. eexists.
    split; [reflexivity|]. split; [reflexivity|]. cbn.
    intros k c0 Hin.
    destruct (find hash (SubComponents this)).
    + apply In_assign in Hin as [E|Hin].
      * inversion E; subst. reflexivity.
      * eapply Hp. exact Hin.
    + destruct Hin as [E|Hin].
      * inversion E; subst. reflexivity.
      * eapply Hp. exact Hin.
  - rewrite RemoveSubComponent_eq.
    destruct (find hash (SubComponents this)).
    + eexists. eexists. split; [reflexivity|]. cbn.
      intros k x Hin. apply In_erase in Hin. eapply Hp. exact Hin.
    + eexists. eexists. split; [reflexivity|exact Hp].
  - rewrite SeparateSubComponent_eq.
    destruct (find hash (SubComponents this)).
    + eexists. eexists. split; [reflexivity|]. cbn.
      intros k x Hin. apply In_erase in Hin. eapply Hp. exact Hin.
    + eexists. eexists. split; [reflexivity|exact Hp].
Qed.

(** ** Who owns what: no object is lost, none is destroyed twice *)

Lemma addresses_owned c : addresses c = address c :: owned (SubComponents c).
Proof. now destruct c. Qed.

Lemma owned_app m1 m2 : owned (m1 ++ m2) = owned m1 ++ owned m2.
Proof. unfold owned. apply flat_map_app. Qed.

Lemma addresses_set_Parent p c : addresses (set_Parent p c) = addresses c.
Proof. now destruct c. Qed.

Lemma destroyed_app l1 l2 : destroyed (l1 ++ l2) = destroyed l1 ++ destroyed l2.
Proof. unfold destroyed. apply flat_map_app. Qed.

Lemma NoDup_app_disjoint {A : Type} (l1 l2 : list A) (a : A) :
  NoDup (l1 ++ l2) -> In a l1 -> ~ In a l2.
Proof.
  induction l1 as [|x l1 IH]; simpl; [intros _ []|].
  intros H. inversion H as [|? ? Hx Hnd]; subst.
  intros [->|Hin] Hin2.
  - apply Hx. apply in_or_app. now right.
  - exact (IH Hnd Hin Hin2).
Qed.

(** The destructor runs of a destruction are the objects of the tree, in
    the order in which the tree lists them. *)
Lemma destroyed_destroy c : destroyed (destroy c) = addresses c.
Proof.
  induction c as [a t p m v IH] using Component_ind.
  rewrite addresses_owned. cbn [destroy address SubComponents].
  change (destroyed (EvDestructor a :: ?l)) with (a :: destroyed l).
  f_equal. rewrite destroyed_app.
  induction m as [|[k child] m' IHm]; [reflexivity|].
  inversion IH as [|? ? Hc Hm']; subst. simpl in Hc.
  specialize (IHm Hm').
  cbn [List.map flat_map]. rewrite destroyed_app.
  change (owned ((k, child) :: m')) with (addresses child ++ owned m').
  change (destroyed (EvDetachedFromComponent ?x ?y :: ?l))
    with (destroyed l).
  rewrite Hc.
  destruct (destroyed (List.map
              (fun kv : size_t * Component =>
                 let (_, child0) := kv in
                 EvDetachedFromComponent (address child0) (Parent child0))
              m')) eqn:E.
  - simpl in IHm. simpl. now rewrite IHm.
  - exfalso. clear -E.
    induction m' as [|[k0 c0] m' IH']; [discriminate|].
    apply IH'. exact E.
Qed.

Lemma count_hooks_destroy c :
  count is_detach_hook (destroy c) = length (descendants c)
  /\ count is_attach_hook (destroy c) = 0%nat.
Proof.
  induction c as [a t p m v IH] using Component_ind.
  unfold descendants. simpl. rewrite !count_cons. simpl.
  induction m as [|[k child] m' IHm]; [split; reflexivity|].
  inversion IH as [|? ? Hc Hm']; subst. simpl in Hc.
  specialize (IHm Hm').
  simpl. rewrite !count_cons. simpl.
  rewrite !count_app in IHm. rewrite !count_app.
  destruct Hc as [Hc1 Hc2]. rewrite Hc1, Hc2.
  rewrite length_app. unfold descendants.
  destruct child as [a0 t0 p0 m0 v0]. simpl. lia.
Qed.

(** X5: [RemoveSubComponent] accounts for every object.  The objects the
    component owned before the call are those it owns afterwards together
    with those whose destructor ran, each once; so distinct addresses stay
    distinct. *)
Theorem remove_accounting hash this :
  exists this' log,
    RemoveSubComponent hash this = Ok tt this' log
    /\ Permutation (addresses this) (addresses this' ++ destroyed log)
    /\ (distinct_addresses this -> distinct_addresses this').
Proof.
  assert (H : exists this' log,
             RemoveSubComponent hash this = Ok tt this' log
             /\ Permutation (addresses this)
                  (addresses this' ++ destroyed log)).
  { rewrite RemoveSubComponent_eq.
    destruct (find hash (SubComponents this)) as [c|] eqn:Hf.
    - eexists. eexists. split; [reflexivity|].
      destruct (find_split _ _ _ Hf) as (m1 & m2 & Hm & Hn).
      rewrite !addresses_owned. cbn [address SubComponents set_SubComponents].
      rewrite Hm, (erase_split _ _ _ _ Hn), !owned_app.
      change (owned ((hash, c) :: m2)) with (addresses c ++ owned m2).
      rewrite destroyed_app, destroyed_destroy. simpl. apply perm_skip.
      rewrite <- app_assoc. apply Permutation_app_head.
      apply Permutation_app_comm.
    - eexists. eexists. split; [reflexivity|].
      simpl. now rewrite app_nil_r. }
  destruct H as (this' & log & E & Hp).
  exists this', log. split; [exact E|]. split; [exact Hp|].
  unfold distinct_addresses. intros Hd.
  eapply NoDup_app_remove_r. eapply Permutation_NoDup; eassumption.
Qed.

(** X6: [SeparateSubComponent] accounts for every object.  The objects the
    component owned before the call are those it owns afterwards together
    with those of the returned object; no destructor runs.  With distinct
    addresses before, both parts have distinct addresses and share none. *)
Theorem separate_accounting hash this :
  exists r this',
    SeparateSubComponent hash this = Ok r this' []
    /\ let handed :=
         match r with
         | Some c => addresses c
         | None => []
         end in
       Permutation (addresses this) (addresses this' ++ handed)
       /\ (distinct_addresses this ->
           distinct_addresses this'
           /\ NoDup handed
           /\ forall a, In a handed -> ~ In a (addresses this')).
Proof.
  assert (H : exists r this',
             SeparateSubComponent hash this = Ok r this' []
             /\ Permutation (addresses this)
                  (addresses this'
                   ++ match r with
                      | Some c => addresses c
                      | None => []
                      end)).
  { rewrite SeparateSubComponent_eq.
    destruct (find hash (SubComponents this)) as [c|] eqn:Hf.
    - eexists. eexists. split; [reflexivity|].
      destruct (find_split _ _ _ Hf) as (m1 & m2 & Hm & Hn).
      rewrite (addresses_owned this), (addresses_owned (set_SubComponents _ _)).
      cbn [address SubComponents set_SubComponents].
      rewrite Hm, (erase_split _ _ _ _ Hn), !owned_app.
      change (owned ((hash, c) :: m2)) with (addresses c ++ owned m2).
      simpl. apply perm_skip.
      rewrite <- app_assoc. apply Permutation_app_head.
      apply Permutation_app_comm.
    - eexists. eexists. split; [reflexivity|]. now rewrite app_nil_r. }
  destruct H as (r & this' & E & Hp).
  exists r, this'. split; [exact E|]. cbv zeta. split; [exact Hp|].
  unfold distinct_addresses. intros Hd.
  pose proof (Permutation_NoDup Hp Hd) as Hnd.
  split; [eapply NoDup_app_remove_r; exact Hnd|].
  split; [eapply NoDup_app_remove_l; exact Hnd|].
  intros a Hin Hin'.
  exact (NoDup_app_disjoint _ _ a Hnd Hin' Hin).
Qed.

(** X7: [AddSubComponent] accounts for every object.  The objects the
    component and the incoming pointer owned before the call are those the
    component owns afterwards together with those whose destructor ran
    (the replaced child and what it owned); when all of them had distinct
    addresses, the component still has distinct addresses. *)
Theorem add_accounting hash c this :
  exists this' log,
    AddSubComponent hash (Some c) this
    = Ok (set_Parent (Some (address this)) c) this' log
    /\ Permutation (addresses this ++ addresses c)
         (addresses this' ++ destroyed log)
    /\ (NoDup (addresses this ++ addresses c) -> distinct_addresses this').
Proof.
  assert (H : exists this' log,
             AddSubComponent hash (Some c) this
             = Ok (set_Parent (Some (address this)) c) this' log
             /\ Permutation (addresses this ++ addresses c)
                  (addresses this' ++ destroyed log)).
  { rewrite AddSubComponent_Some. eexists. eexists.
    split; [reflexivity|].
    rewrite (addresses_owned this), (addresses_owned (set_SubComponents _ _)).
    cbn [address SubComponents set_SubComponents].
    destruct (find hash (SubComponents this)) as [old|] eqn:Hf.
    - destruct (find_split _ _ _ Hf) as (m1 & m2 & Hm & Hn).
      rewrite Hm, (assign_split _ _ _ _ _ Hn), !owned_app.
      change (owned ((hash, ?x) :: m2)) with (addresses x ++ owned m2).
      rewrite addresses_set_Parent.
      unfold replaced_log, attached_log.
      rewrite !destroyed_app, destroyed_destroy. simpl.
      rewrite app_nil_r. apply perm_skip.
      rewrite <- !app_assoc. apply Permutation_app_head.
      transitivity ((owned m2 ++ addresses c) ++ addresses old).
      + apply Permutation_app_comm.
      + rewrite <- app_assoc.
        transitivity ((owned m2 ++ addresses old) ++ addresses c).
        * rewrite <- app_assoc. apply Permutation_app_head.
          apply Permutation_app_comm.
        * apply Permutation_app_comm.
    - change (owned ((hash, ?x) :: ?m)) with (addresses x ++ owned m).
      rewrite addresses_set_Parent. simpl. rewrite app_nil_r.
      apply perm_skip. apply Permutation_app_comm. }
  destruct H as (this' & log & E & Hp).
  exists this', log. split; [exact E|]. split; [exact Hp|].
  unfold distinct_addresses. intros Hd.
  eapply NoDup_app_remove_r. eapply Permutation_NoDup; eassumption.
Qed.

(** X8: what a destruction does in total.  The destructor runs are exactly
    the objects of the tree, the root first; [OnDetachedFromComponent] is
    called once per object below the root; [OnAttachedToComponent] is not
    called. *)
Theorem destruction_totals c :
  destroyed (destroy c) = addresses c
  /\ hd_error (destroy c) = Some (EvDestructor (address c))
  /\ count is_detach_hook (destroy c) = length (descendants c)
  /\ count is_attach_hook (destroy c) = 0%nat.
Proof.
  split; [apply destroyed_destroy|].
  split; [now destruct c|].
  apply count_hooks_destroy.
Qed.

(** ** Further properties of the member templates *)

Lemma SeparateSubComponent_disjoint hash this c :
  find hash (SubComponents this) = Some c ->
  distinct_addresses this ->
  forall a,
    In a (addresses c) ->
    ~ In a (addresses
              (set_SubComponents (erase hash (SubComponents this)) this)).
Proof.
  intros Hf Hd a Hin Hin'.
  destruct (find_split _ _ _ Hf) as (m1 & m2 & Hm & Hn).
  unfold distinct_addresses in Hd.
  rewrite addresses_owned in Hd, Hin'.
  cbn [address SubComponents set_SubComponents] in Hin'.
  rewrite Hm, (erase_split _ _ _ _ Hn), owned_app in Hin'.
  rewrite Hm, owned_app in Hd.
  change (owned ((hash, c) :: m2)) with (addresses c ++ owned m2) in Hd.
  assert (Hperm : Permutation
                    (address this :: owned m1 ++ addresses c ++ owned m2)
                    (addresses c ++ address this :: owned m1 ++ owned m2)).
  { apply (Permutation_app_swap_app (address this :: owned m1)
             (addresses c) (owned m2)). }
  pose proof (Permutation_NoDup Hperm Hd) as Hnd.
  exact (NoDup_app_disjoint _ _ a Hnd Hin Hin').
Qed.

Lemma owned_erase hash m c :
  find hash m = Some c ->
  Permutation (owned m) (addresses c ++ owned (erase hash m)).
Proof.
  intros Hf. destruct (find_split _ _ _ Hf) as (m1 & m2 & -> & Hn).
  rewrite (erase_split _ _ _ _ Hn), !owned_app.
  change (owned ((hash, c) :: m2)) with (addresses c ++ owned m2).
  apply Permutation_app_swap_app.
Qed.

Section Coverage.

Context {RTTI : TypeInfo}.

Lemma HasComponent_eq T this :
  HasComponent T this =
  Ok match find (hash_code T) (SubComponents this) with
     | Some _ => true
     | None => false
     end this [].
Proof.
  unfold HasComponent, bind. rewrite GetSubComponent_eq. reflexivity.
Qed.



(** X11: after [RemoveComponent<T>()] the slot is free.  On a component
    with unique keys, [GetComponent<T>()] then returns null,
    [HasComponent<T>()] false, [SeparateComponent<T>()] null, and a second
    [RemoveComponent<T>()] does nothing. *)
Theorem remove_frees_slot T this :
  unique_keys this ->
  exists this' log,
    RemoveComponent T this = Ok tt this' log
    /\ GetComponent T this' = Ok None this' []
    /\ HasComponent T this' = Ok false this' []
    /\ SeparateComponent T this' = Ok None this' []
    /\ RemoveComponent T this' = Ok tt this' [].
Proof.
  unfold unique_keys. intros Hk.
  assert (H : exists this' log,
             RemoveComponent T this = Ok tt this' log
             /\ find (hash_code T) (SubComponents this') = None).
  { unfold RemoveComponent. rewrite RemoveSubComponent_eq.
    destruct (find (hash_code T) (SubComponents this)) eqn:Hf.
    - eexists. eexists. split; [reflexivity|]. cbn.
      now apply find_erase.
    - eexists. eexists. split; [reflexivity|exact Hf]. }
  destruct H as (this' & log & E & Hn).
  exists this', log. split; [exact E|].
  split; [rewrite GetComponent_eq, Hn; reflexivity|].
  split; [rewrite HasComponent_eq, Hn; reflexivity|].
  split.
  - unfold SeparateComponent, bind.
    now rewrite (SeparateSubComponent_absent _ _ Hn).
  - unfold RemoveComponent. now apply RemoveSubComponent_absent.
Qed.

(** X12: [HasComponent<T>()] against [GetComponent<T>()].  The first
    compares the raw lookup with null, the second casts it.  So a non-null
    [GetComponent<T>()] implies [HasComponent<T>()], and a false
    [HasComponent<T>()] implies a null [GetComponent<T>()]; but when the
    slot of [T]'s hash code holds an object that is not a [T],
    [HasComponent<T>()] is true while [GetComponent<T>()] is null. *)
Theorem has_versus_get T this :
  (forall c, holds_child T this c -> HasComponent T this = Ok true this [])
  /\ (HasComponent T this = Ok false this [] -> holds_no_child T this)
  /\ (forall c,
        find (hash_code T) (SubComponents this) = Some c ->
        is_base_of T (dynamic_type c) = false ->
        HasComponent T this = Ok true this []
        /\ GetComponent T this = Ok None this []).
Proof.
  split; [|split].
  - intros c H. apply holds_child_find in H as [Hf _].
    now rewrite HasComponent_eq, Hf.
  - unfold holds_no_child. rewrite HasComponent_eq, GetComponent_eq.
    destruct (find (hash_code T) (SubComponents this)); [discriminate|].
    reflexivity.
  - intros c Hf Hb. rewrite HasComponent_eq, GetComponent_eq, Hf.
    split; [reflexivity|]. cbn. now rewrite Hb.
Qed.

(** X13: [SeparateComponent<T>()] loses an object that is not a [T].  When
    the slot of [T]'s hash code holds such an object, the call returns
    null, yet the slot has been erased, no destructor has run and no hook
    was called: the object is neither in the registry, nor with the caller,
    nor destroyed. *)
Theorem separate_loses_foreign_object T this c :
  find (hash_code T) (SubComponents this) = Some c ->
  is_base_of T (dynamic_type c) = false ->
  exists this',
    SeparateComponent T this = Ok None this' []
    /\ GetComponents this' = erase (hash_code T) (GetComponents this)
    /\ (unique_keys this -> HasComponent T this' = Ok false this' [])
    /\ (distinct_addresses this ->
        forall a, In a (addresses c) -> ~ In a (addresses this')).
Proof.
  intros Hf Hb. eexists.
  split.
  { unfold SeparateComponent, bind.
    rewrite (SeparateSubComponent_present _ _ _ Hf). cbn.
    rewrite Hb. reflexivity. }
  split; [reflexivity|].
  split.
  - intros Hk. rewrite HasComponent_eq. cbn.
    now rewrite (find_erase _ _ Hk).
  - intros Hd. now apply SeparateSubComponent_disjoint.
Qed.

(** X14: [AcquireComponent<T>()] evicts an object that is not a [T].  When
    the slot of [T]'s hash code holds such an object, [GetComponent<T>()]
    is null, so a new [T] is constructed and added: the old object gets
    the replace hooks and is destroyed, and the new object is returned. *)
Theorem acquire_evicts_foreign_object T a this c :
  find (hash_code T) (SubComponents this) = Some c ->
  is_base_of T (dynamic_type c) = false ->
  let n := mkComponent a T (Some (address this)) [] (construct T []) in
  exists this',
    AcquireComponent T a this
    = Ok (Some n) this'
         ([EvComponentDetached (address this) (address c) (Parent c);
           EvDetachedFromComponent (address c) (Parent c)]
          ++ destroy c
          ++ [EvComponentAttached (address this) a (Some (address this));
              EvAttachedToComponent a (Some (address this))])
    /\ holds_child T this' n
    /\ length (GetComponents this') = length (GetComponents this).
Proof.
  intros Hf Hb. cbv zeta.
  assert (Hn : holds_no_child T this).
  { unfold holds_no_child. rewrite GetComponent_eq, Hf. cbn.
    now rewrite Hb. }
  rewrite (AcquireComponent_absent _ a _ Hn), AddComponent_Adopt.
  unfold make_unique.
  rewrite (AdoptComponent_replace T
             (mkComponent a T None [] (construct T [])) _ _ Hf
             (is_base_of_refl T)).
  unfold replaced_log, attached_log. rewrite <- app_assoc.
  eexists. split; [reflexivity|]. split.
  - apply holds_child_find. split; [|apply is_base_of_refl].
    cbn. eapply find_assign. exact Hf.
  - unfold GetComponents. cbn. apply length_assign.
Qed.

(** X18: moving a sub component to another parent.  A child separated
    from one component and adopted by another, whose slot is free, ends up
    in the second one's registry with the second one as [Parent]; only the
    attach hooks of the second parent and of the child run; the two
    components together own the same objects as before. *)
Theorem move_between_parents T p q c :
  holds_child T p c ->
  find (hash_code T) (SubComponents q) = None ->
  exists p' q',
    SeparateComponent T p = Ok (Some c) p' []
    /\ AdoptComponent T (Some c) q
       = Ok (Some (set_Parent (Some (address q)) c)) q'
            [EvComponentAttached (address q) (address c)
               (Some (address q));
             EvAttachedToComponent (address c) (Some (address q))]
    /\ holds_child T q' (set_Parent (Some (address q)) c)
    /\ GetParent (set_Parent (Some (address q)) c) = Some (address q')
    /\ Permutation (addresses p ++ addresses q)
         (addresses p' ++ addresses q').
Proof.
  intros H Hq. pose proof H as H0.
  apply holds_child_find in H0 as [Hf Hb].
  eexists. eexists.
  split; [exact (SeparateComponent_present _ _ _ H)|].
  split; [exact (AdoptComponent_insert _ _ _ Hq Hb)|].
  split.
  { apply holds_child_find. split; [|exact Hb].
    cbn. now rewrite N.eqb_refl. }
  split; [reflexivity|].
  rewrite !addresses_owned.
  cbn [address SubComponents set_SubComponents].
  change (owned ((hash_code T, ?x) :: ?m)) with (addresses x ++ owned m).
  rewrite addresses_set_Parent.
  simpl. apply perm_skip.
  rewrite (owned_erase _ _ _ Hf), <- app_assoc.
  transitivity (owned (erase (hash_code T) (SubComponents p))
                ++ addresses c ++ address q :: owned (SubComponents q)).
  - apply Permutation_app_swap_app.
  - apply Permutation_app_head. symmetry. apply Permutation_middle.
Qed.

End Coverage.

(** ** The claims about the locking discipline *)

Import Locking.

Lemma holders_update k i t t' l :
  nth_error l i = Some t ->
  (length (filter (holds k) (update i t' l)) + (if holds k t then 1 else 0)
   = length (filter (holds k) l) + (if holds k t' then 1 else 0))%nat.
Proof.
  revert i. induction l as [|x l IH]; intros [|i]; simpl; try discriminate.
  - intros [= ->]. destruct (holds k t), (holds k t'); simpl; lia.
  - intros H. specialize (IH _ H). destruct (holds k x); simpl; lia.
Qed.

Lemma holders_one f (l : list thread) i t :
  nth_error l i = Some t -> f t = true -> (1 <= length (filter f l))%nat.
Proof.
  revert i. induction l as [|x l IH]; intros [|i]; simpl; try discriminate.
  - intros [= ->] ->. simpl. lia.
  - intros H Hf. specialize (IH _ H Hf). destruct (f x); simpl; lia.
Qed.

Lemma holders_two f (l : list thread) i j ti tj :
  i <> j ->
  nth_error l i = Some ti -> nth_error l j = Some tj ->
  f ti = true -> f tj = true ->
  (2 <= length (filter f l))%nat.
Proof.
  revert i j. induction l as [|x l IH]; intros [|i] [|j]; simpl;
    try discriminate; try congruence.
  - intros _ [= ->] Hj -> Hf. simpl.
    pose proof (holders_one f l j tj Hj Hf). lia.
  - intros _ Hi [= ->] Hf ->. simpl.
    pose proof (holders_one f l i ti Hi Hf). lia.
  - intros Hne Hi Hj Hfi Hfj.
    assert (i <> j) as Hne' by congruence.
    specialize (IH _ _ Hne' Hi Hj Hfi Hfj). destruct (f x); simpl; lia.
Qed.

Lemma consistent_start calls : consistent (start calls).
Proof.
  assert (H : forall k,
             length (filter (holds k)
                       (List.map (fun f => mkThread f waiting) calls))
             = 0%nat).
  { intros k. induction calls as [|f calls IH]; [reflexivity|exact IH]. }
  unfold consistent, holders, start. simpl.
  rewrite !H. auto.
Qed.

Lemma holds_thread k f ph :
  holds k (mkThread f ph) =
  match ph, guard f, k with
  | inside, unique_lock, unique_lock => true
  | inside, shared_lock, shared_lock => true
  | _, _, _ => false
  end.
Proof. reflexivity. Qed.

Lemma consistent_step i s s' :
  consistent s -> step i s = Some s' -> consistent s'.
Proof.
  unfold consistent, holders, step.
  destruct s as [[ex sh] ts]. simpl.
  destruct (nth_error ts i) as [[f ph]|] eqn:Hi; [|discriminate].
  pose proof (fun k t' => holders_update k i _ t' ts Hi) as Hupd.
  simpl. intros [Hs He].
  destruct ph; simpl; [| |discriminate].
  - pose proof (Hupd unique_lock (mkThread f inside)) as Hu.
    pose proof (Hupd shared_lock (mkThread f inside)) as Hr.
    rewrite !holds_thread in Hu, Hr.
    destruct (guard f) eqn:Hg; simpl.
    + destruct ex; simpl; [discriminate|].
      destruct (Nat.eqb sh 0) eqn:Hz; simpl; [|discriminate].
      apply Nat.eqb_eq in Hz. intros [= <-]. simpl. lia.
    + destruct ex; simpl; [discriminate|].
      intros [= <-]. simpl. lia.
  - pose proof (Hupd unique_lock (mkThread f finished)) as Hu.
    pose proof (Hupd shared_lock (mkThread f finished)) as Hr.
    rewrite !holds_thread in Hu, Hr.
    intros [= <-]. simpl.
    destruct (guard f) eqn:Hg; simpl.
    + destruct ex; lia.
    + destruct ex; lia.
Qed.

Lemma consistent_run schedule s s' :
  consistent s -> run schedule s = Some s' -> consistent s'.
Proof.
  revert s. induction schedule as [|i schedule IH]; simpl; intros s Hc.
  - now intros [= <-].
  - destruct (step i s) as [s1|] eqn:E; [|discriminate].
    apply IH. eapply consistent_step; eassumption.
Qed.

(** X17: a thread inside under a [std::unique_lock] ([AddSubComponent],
    [RemoveSubComponent]) is the only thread inside, whatever the other
    threads call and however they are scheduled. *)
Lemma unique_lock_excludes calls schedule s i j ti tj :
  run schedule (start calls) = Some s ->
  i <> j ->
  nth_error (threads s) i = Some ti ->
  nth_error (threads s) j = Some tj ->
  pc ti = inside ->
  guard (call ti) = unique_lock ->
  pc tj <> inside.
Proof.
  intros Hrun Hne Hi Hj Hpi Hgi Hpj.
  pose proof (consistent_run _ _ _ (consistent_start calls) Hrun)
    as [Hs He].
  unfold holders in *.
  assert (Hti : holds unique_lock ti = true).
  { unfold holds. now rewrite Hpi, Hgi. }
  pose proof (holders_one _ _ _ _ Hi Hti) as H1.
  destruct (exclusive (SubComponentsMutex s)); [|lia].
  destruct He as [Hu Hr].
  destruct (guard (call tj)) eqn:Hgj.
  - assert (Htj : holds unique_lock tj = true).
    { unfold holds. now rewrite Hpj, Hgj. }
    pose proof (holders_two _ _ _ _ _ _ Hne Hi Hj Hti Htj). lia.
  - assert (Htj : holds shared_lock tj = true).
    { unfold holds. now rewrite Hpj, Hgj. }
    pose proof (holders_one _ _ _ _ Hj Htj). lia.
Qed.

(** C3 (the source deviates from the claim): [SeparateSubComponent] erases
    an element of [SubComponents] while it holds [SubComponentsMutex] only
    through a [std::shared_lock], so a thread can be inside it while another
    thread is inside [GetSubComponent]: the two are not mutually
    exclusive. *)
Theorem separate_shares_the_lock :
  let s :=
    mkSystem (mkMutex false 2)
      [mkThread call_SeparateSubComponent inside;
       mkThread call_GetSubComponent inside] in
  guard call_SeparateSubComponent = shared_lock
  /\ writes_SubComponents call_SeparateSubComponent = true
  /\ (exists this',
        SeparateSubComponent 2%N Sample.parent
        = Ok (Some Sample.child) this' []
        /\ SubComponents this' <> SubComponents Sample.parent)
  /\ run [0%nat; 1%nat]
       (start [call_SeparateSubComponent; call_GetSubComponent])
     = Some s
  /\ ~ mutually_exclusive s.
Proof.
  cbv zeta. split; [reflexivity|]. split; [reflexivity|].
  split.
  { eexists. split; [reflexivity|]. discriminate. }
  split; [reflexivity|].
  intros H.
  exact (H 0%nat 1%nat _ _ (Nat.neq_0_succ 0) eq_refl eq_refl eq_refl
           eq_refl eq_refl).
Qed.


(** ** Further properties of the locking discipline *)

Lemma sum_update (f : thread -> nat) i t t' l :
  nth_error l i = Some t ->
  (list_sum (List.map f (update i t' l)) + f t
   = list_sum (List.map f l) + f t')%nat.
Proof.
  revert i. induction l as [|x l IH]; intros [|i]; simpl; try discriminate.
  - intros [= ->]. lia.
  - intros H. specialize (IH _ H). lia.
Qed.

Lemma step_remaining i s s' :
  step i s = Some s' -> S (remaining s') = remaining s.
Proof.
  unfold step, remaining. destruct s as [m ts]. simpl.
  destruct (nth_error ts i) as [[f ph]|] eqn:Hi; [|discriminate].
  simpl. destruct ph; simpl; [| |discriminate].
  - destruct (acquire (guard f) m); [|discriminate].
    intros [= <-]. simpl.
    pose proof (sum_update
                  (fun t => match pc t with
                            | waiting => 2%nat
                            | inside => 1%nat
                            | finished => 0%nat
                            end) i _ (mkThread f inside) ts Hi) as H.
    simpl in H. lia.
  - intros [= <-]. simpl.
    pose proof (sum_update
                  (fun t => match pc t with
                            | waiting => 2%nat
                            | inside => 1%nat
                            | finished => 0%nat
                            end) i _ (mkThread f finished) ts Hi) as H.
    simpl in H. lia.
Qed.

Lemma phase_cases (ts : list thread) :
  (exists i t, nth_error ts i = Some t /\ pc t = inside)
  \/ ((forall t, In t ts -> pc t <> inside)
      /\ ((exists i t, nth_error ts i = Some t /\ pc t = waiting)
          \/ forall t, In t ts -> pc t = finished)).
Proof.
  induction ts as [|x ts IH].
  - right. split; [intros t []|]. right. intros t [].
  - destruct (pc x) eqn:Hx.
    + destruct IH as [(i & t & Hi & Ht)|[Hno _]].
      * left. now exists (S i), t.
      * right. split.
        -- intros t [<-|Hin]; [congruence|now apply Hno].
        -- left. now exists 0%nat, x.
    + left. now exists 0%nat, x.
    + destruct IH as [(i & t & Hi & Ht)|[Hno [(i & t & Hi & Ht)|Hall]]].
      * left. now exists (S i), t.
      * right. split.
        -- intros t0 [<-|Hin]; [congruence|now apply Hno].
        -- left. now exists (S i), t.
      * right. split.
        -- intros t0 [<-|Hin]; [congruence|now apply Hno].
        -- right. intros t0 [<-|Hin]; [assumption|now apply Hall].
Qed.

Lemma no_inside_holders k (ts : list thread) :
  (forall t, In t ts -> pc t <> inside) ->
  length (filter (holds k) ts) = 0%nat.
Proof.
  induction ts as [|x ts IH]; [reflexivity|].
  intros H. simpl.
  assert (Hx : holds k x = false).
  { unfold holds. pose proof (H x (or_introl eq_refl)).
    destruct (pc x); [reflexivity|congruence|reflexivity]. }
  rewrite Hx. apply IH. intros t Hin. apply H. now right.
Qed.

Lemma all_finished_remaining s :
  (forall t, In t (threads s) -> pc t = finished) <-> remaining s = 0%nat.
Proof.
  unfold remaining. destruct s as [m ts]. simpl.
  induction ts as [|x ts IH]; simpl.
  - split; [reflexivity|intros _ t []].
  - split.
    + intros H. rewrite (H x (or_introl eq_refl)).
      apply IH. intros t Hin. apply H. now right.
    + intros H t [<-|Hin].
      * destruct (pc x); [lia|lia|reflexivity].
      * apply IH; [|assumption]. destruct (pc x); lia.
Qed.

(** A free mutex is what a consistent system without a thread inside has. *)
Lemma nobody_inside_free s :
  consistent s ->
  (forall t, In t (threads s) -> pc t <> inside) ->
  SubComponentsMutex s = mkMutex false 0.
Proof.
  unfold consistent, holders. intros [Hs He] Hno.
  rewrite !(no_inside_holders _ _ Hno) in *.
  destruct (SubComponentsMutex s) as [ex sh]. simpl in *.
  destruct ex; [lia|]. now rewrite Hs.
Qed.

Lemma progress s :
  consistent s -> remaining s <> 0%nat -> exists i s', step i s = Some s'.
Proof.
  intros Hc Hr.
  destruct (phase_cases (threads s))
    as [(i & t & Hi & Ht)|[Hno [(i & t & Hi & Ht)|Hall]]].
  - exists i. unfold step. rewrite Hi, Ht. eexists. reflexivity.
  - exists i. unfold step. rewrite Hi, Ht.
    rewrite (nobody_inside_free s Hc Hno).
    destruct (guard (call t)); eexists; reflexivity.
  - exfalso. apply Hr. now apply all_finished_remaining.
Qed.

Lemma completion n :
  forall s,
    consistent s -> remaining s = n ->
    exists schedule s',
      run schedule s = Some s' /\ remaining s' = 0%nat /\ consistent s'.
Proof.
  induction n as [|n IH]; intros s Hc Hr.
  - exists [], s. split; [reflexivity|]. split; assumption.
  - destruct (progress s Hc) as (i & s1 & Hstep); [lia|].
    pose proof (step_remaining _ _ _ Hstep) as Hrem.
    destruct (IH s1) as (schedule & s' & Hrun & H0 & Hc').
    + eapply consistent_step; eassumption.
    + lia.
    + exists (i :: schedule), s'. simpl. rewrite Hstep.
      split; [exact Hrun|]. split; assumption.
Qed.

Lemma update_app (l1 : list thread) x t l2 :
  update (length l1) t (l1 ++ x :: l2) = l1 ++ t :: l2.
Proof. induction l1 as [|y l1 IH]; simpl; [reflexivity|now rewrite IH]. Qed.

Lemma update_after_map (g : member -> thread) done x t l2 :
  update (length done) t (List.map g done ++ x :: l2)
  = List.map g done ++ t :: l2.
Proof.
  rewrite <- (length_map g done). apply update_app.
Qed.

Lemma sharers_enter (todo : list member) :
  Forall (fun f => guard f = shared_lock) todo ->
  forall done,
    run (seq (length done) (length todo))
      (mkSystem (mkMutex false (length done))
         (List.map (fun f => mkThread f inside) done
          ++ List.map (fun f => mkThread f waiting) todo))
    = Some (mkSystem (mkMutex false (length done + length todo))
              (List.map (fun f => mkThread f inside) (done ++ todo))).
Proof.
  induction 1 as [|f todo Hf _ IH]; intros done.
  - simpl. now rewrite !app_nil_r, Nat.add_0_r.
  - cbn [length seq run List.map]. unfold step.
    cbn [threads SubComponentsMutex].
    pose proof (length_map (fun f => mkThread f inside) done) as Hlen.
    rewrite <- Hlen at 1.
    rewrite nth_error_app2, Nat.sub_diag by lia.
    cbn [nth_error pc call]. rewrite Hf. cbn [acquire exclusive sharers].
    rewrite update_after_map.
    specialize (IH (done ++ [f])).
    rewrite length_app, Nat.add_comm in IH. cbn [length Nat.add] in IH.
    rewrite map_app, <- !app_assoc in IH. cbn [List.map app] in IH.
    rewrite IH. now rewrite Nat.add_succ_r.
Qed.

(** X15: no call waits for ever on [SubComponentsMutex].  From every state a
    schedule can reach, some schedule lets all calls return, and the mutex
    is free then: each member function takes the one mutex of its
    component once and releases it on return. *)
Theorem every_call_returns calls schedule s :
  run schedule (start calls) = Some s ->
  exists schedule' s',
    run schedule' s = Some s'
    /\ (forall t, In t (threads s') -> pc t = finished)
    /\ SubComponentsMutex s' = mkMutex false 0.
Proof.
  intros Hrun.
  pose proof (consistent_run _ _ _ (consistent_start calls) Hrun) as Hc.
  destruct (completion (remaining s) s Hc eq_refl)
    as (schedule' & s' & Hrun' & H0 & Hc').
  exists schedule', s'. split; [exact Hrun'|].
  pose proof (proj2 (all_finished_remaining s') H0) as Hfin.
  split; [exact Hfin|].
  apply nobody_inside_free; [exact Hc'|].
  intros t Hin. rewrite (Hfin t Hin). discriminate.
Qed.

(** X16: calls under [std::shared_lock] overlap.  Any number of calls of
    [GetSubComponent] and [SeparateSubComponent] can be inside their
    critical sections at the same time, the mutex counting one sharer for
    each. *)
Theorem shared_lock_calls_overlap calls :
  Forall (fun f => guard f = shared_lock) calls ->
  run (seq 0 (length calls)) (start calls)
  = Some (mkSystem (mkMutex false (length calls))
            (List.map (fun f => mkThread f inside) calls)).
Proof.
  intros H. exact (sharers_enter calls H []).
Qed.

(** ** The statements on the classes of the test file *)

Import Sample.
Local Open Scope N_scope.

(** The model meets the expectations of the test, and shows what the test
    prints: attaching logs the parent hook before the child hook, removing
    logs the child hook before the parent hook, separating logs nothing. *)
Example Basic_expectations :
  let value := mkComponent 200 SampleValueComponent (Some 100) [] 1%Z in
  let basic := mkComponent 300 SampleBasicComponent (Some 100) [] 0%Z in
  Basic empty_parent
  = Ok [Some value; None; None; Some basic; Some basic; None]
       empty_parent
       [EvComponentAttached 100 200 (Some 100);
        EvAttachedToComponent 200 (Some 100);
        EvComponentAttached 100 300 (Some 100);
        EvAttachedToComponent 300 (Some 100);
        EvDetachedFromComponent 200 (Some 100);
        EvComponentDetached 100 200 (Some 100);
        EvDestructor 200].
Proof. reflexivity. Qed.

Lemma distinct_addresses_parent : distinct_addresses parent.
Proof.
  unfold distinct_addresses. cbn.
  repeat constructor; cbn; intuition discriminate.
Defined.

Lemma unique_keys_parent : unique_keys parent.
Proof.
  unfold unique_keys. cbn. repeat constructor. intros [].
Defined.

Lemma separate_fires_no_hook_witness :
  holds_child SampleValueComponent parent child
  /\ SeparateComponent SampleValueComponent parent
     = Ok (Some child) empty_parent []
  /\ RemoveComponent SampleValueComponent parent
     = Ok tt empty_parent
          [EvDetachedFromComponent 200 (Some 100%N);
           EvComponentDetached 100 200 (Some 100%N);
           EvDestructor 200;
           EvDetachedFromComponent 300 (Some 200%N);
           EvDestructor 300].
Proof.
  split; [reflexivity|].
  exact (separate_fires_no_hook (RTTI := type_info) SampleValueComponent parent child eq_refl).
Defined.

(** The claim as stated fails: separating the [SampleValueComponent] of
    [parent] returns it with [GetParent()] still at the address of
    [parent]. *)
Lemma separate_clears_parent_counterexample :
  ~ (forall T this c,
        holds_child T this c ->
        exists x this' log,
          SeparateComponent T this = Ok (Some x) this' log
          /\ GetParent x = None).
Proof.
  intros H.
  destruct (H SampleValueComponent parent child eq_refl)
    as (x & this' & log & E & Hp).
  cbv in E. injection E as <- _ _. discriminate Hp.
Qed.

Lemma separate_keeps_parent_witness :
  holds_child SampleValueComponent parent child
  /\ is_base_of SampleValueComponent (dynamic_type standalone) = true
  /\ (exists x this',
         SeparateComponent SampleValueComponent parent
         = Ok (Some x) this' []
         /\ x = child /\ GetParent x = GetParent child)
  /\ (exists x this' log,
         (_ <- AdoptComponent SampleValueComponent (Some standalone) ;;
          SeparateComponent SampleValueComponent) parent
         = Ok (Some x) this' log
         /\ GetParent x = Some (address parent)).
Proof.
  split; [reflexivity|]. split; [reflexivity|].
  exact (separate_keeps_parent (RTTI := type_info) SampleValueComponent parent child standalone
           eq_refl eq_refl).
Defined.

Lemma replace_firing_order_witness :
  find (hash_code SampleValueComponent) (SubComponents parent) = Some child
  /\ distinct_addresses parent
  /\ is_base_of SampleValueComponent (dynamic_type standalone) = true
  /\ exists n this',
       Some standalone = Some n
       /\ AdoptComponent SampleValueComponent (Some standalone) parent
          = Ok (Some (set_Parent (Some 100%N) n)) this'
               [EvComponentDetached 100 200 (Some 100%N);
                EvDetachedFromComponent 200 (Some 100%N);
                EvDestructor 200;
                EvDetachedFromComponent 300 (Some 200%N);
                EvDestructor 300;
                EvComponentAttached 100 (address n) (Some 100%N);
                EvAttachedToComponent (address n) (Some 100%N)].
Proof.
  split; [reflexivity|]. split; [exact distinct_addresses_parent|].
  split; [reflexivity|].
  destruct (replace_firing_order (RTTI := type_info) SampleValueComponent standalone 500 [1%Z]
              parent child eq_refl distinct_addresses_parent eq_refl
              (Some standalone) (or_introl eq_refl))
    as (n & this' & E & Hrun & _).
  exists n, this'. split; [exact E|exact Hrun].
Defined.

Lemma separate_adopt_round_trip_witness :
  holds_child SampleValueComponent parent child
  /\ unique_keys parent
  /\ exists this',
       (x <- SeparateComponent SampleValueComponent ;;
        AdoptComponent SampleValueComponent x) parent
       = Ok (Some child) this'
            [EvComponentAttached 100 200 (Some 100%N);
             EvAttachedToComponent 200 (Some 100%N)]
       /\ GetComponent SampleValueComponent this'
          = Ok (Some child) this' [].
Proof.
  split; [reflexivity|]. split; [exact unique_keys_parent|].
  destruct (separate_adopt_round_trip (RTTI := type_info) SampleValueComponent parent child
              eq_refl unique_keys_parent)
    as (this' & Hrun & Hget & _).
  exists this'. split; [exact Hrun|exact Hget].
Defined.

Lemma destruction_propagation_witness :
  distinct_addresses parent
  /\ count (is_detached_from 200) (destroy parent) = 1%nat
  /\ count (is_detached_from 300) (destroy parent) = 1%nat
  /\ count is_component_detached (destroy parent) = 0%nat.
Proof.
  split; [exact distinct_addresses_parent|].
  destruct (destruction_propagation parent distinct_addresses_parent)
    as (_ & Hdesc & _ & Hnone & _).
  split; [|split].
  - apply (Hdesc 200%N). cbn. now left.
  - apply (Hdesc 300%N). cbn. right. now left.
  - exact Hnone.
Defined.

Lemma separation_idempotent_witness :
  find (hash_code SampleBasicComponent) (SubComponents parent) = None
  /\ SeparateComponent SampleBasicComponent parent = Ok None parent []
  /\ holds_child SampleValueComponent parent child
  /\ unique_keys parent
  /\ exists this',
       (x <- SeparateComponent SampleValueComponent ;;
        y <- SeparateComponent SampleValueComponent ;;
        ret (x, y)) parent
       = Ok (Some child, None) this' [].
Proof.
  split; [reflexivity|].
  split.
  { exact (proj1 (separation_idempotent (RTTI := type_info) SampleBasicComponent parent)
             eq_refl). }
  split; [reflexivity|]. split; [exact unique_keys_parent|].
  exact (proj2 (proj2 (separation_idempotent (RTTI := type_info) SampleValueComponent parent))
           child eq_refl unique_keys_parent).
Defined.

Lemma remove_absent_is_noop_witness :
  find (hash_code SampleBasicComponent) (SubComponents parent) = None
  /\ RemoveComponent SampleBasicComponent parent = Ok tt parent []
  /\ find (hash_code SampleValueComponent) (SubComponents parent)
     = Some child
  /\ RemoveComponent SampleValueComponent parent
     = Ok tt empty_parent
          [EvDetachedFromComponent 200 (Some 100%N);
           EvComponentDetached 100 200 (Some 100%N);
           EvDestructor 200;
           EvDetachedFromComponent 300 (Some 200%N);
           EvDestructor 300].
Proof.
  split; [reflexivity|].
  split.
  { exact (proj1 (remove_absent_is_noop (RTTI := type_info) SampleBasicComponent parent)
             eq_refl). }
  split; [reflexivity|].
  exact (proj1 (proj2 (remove_absent_is_noop (RTTI := type_info) SampleValueComponent parent)
                  child eq_refl)).
Defined.

Lemma acquire_idempotent_witness :
  holds_child SampleValueComponent parent child
  /\ AcquireComponent SampleValueComponent 500 parent
     = Ok (Some child) parent []
  /\ holds_no_child SampleBasicComponent parent
  /\ AcquireComponent SampleBasicComponent 500 parent
     = AddComponent SampleBasicComponent 500 [] parent.
Proof.
  split; [reflexivity|].
  split.
  { exact (proj1 (acquire_idempotent (RTTI := type_info) SampleValueComponent 500 600 parent)
             child eq_refl). }
  split; [reflexivity|].
  exact (proj1 (proj1 (proj2 (acquire_idempotent (RTTI := type_info) SampleBasicComponent
                                500 600 parent)) eq_refl)).
Defined.

(** ** The further properties on concrete components *)

Lemma children_point_back_parent : children_point_back parent.
Proof.
  intros k c [E|[]]. inversion E. reflexivity.
Defined.

Lemma distinct_addresses_parent_standalone :
  NoDup (addresses parent ++ addresses standalone).
Proof.
  cbn. repeat constructor; cbn; intuition discriminate.
Defined.

Lemma other_slots_untouched_witness :
  1 <> 2
  /\ exists this' log,
       RemoveSubComponent 2 parent = Ok tt this' log
       /\ find 1 (SubComponents this') = find 1 (SubComponents parent).
Proof.
  assert (H : 1 <> 2) by discriminate.
  split; [exact H|].
  exact (proj1 (proj2 (other_slots_untouched 2 1 standalone parent H))).
Defined.

Lemma keys_stay_unique_witness :
  NoDup (keys (GetComponents parent))
  /\ exists r this' log,
       AddSubComponent 2 (Some standalone) parent = Ok r this' log
       /\ NoDup (keys (GetComponents this')).
Proof.
  split; [exact unique_keys_parent|].
  exact (proj1 (keys_stay_unique 2 standalone parent unique_keys_parent)).
Defined.

Lemma parents_stay_right_witness :
  children_point_back parent
  /\ exists r this' log,
       AddSubComponent 1 (Some standalone) parent = Ok r this' log
       /\ GetParent r = Some (address this')
       /\ children_point_back this'.
Proof.
  split; [exact children_point_back_parent|].
  exact (proj1 (parents_stay_right 1 standalone parent
                  children_point_back_parent)).
Defined.

Lemma remove_accounting_witness :
  distinct_addresses parent
  /\ exists this' log,
       RemoveSubComponent 2 parent = Ok tt this' log
       /\ Permutation [100; 200; 300] (addresses this' ++ destroyed log)
       /\ distinct_addresses this'.
Proof.
  split; [exact distinct_addresses_parent|].
  destruct (remove_accounting 2 parent) as (this' & log & E & Hp & Hd).
  exists this', log. split; [exact E|]. split; [exact Hp|].
  exact (Hd distinct_addresses_parent).
Defined.

Lemma separate_accounting_witness :
  distinct_addresses parent
  /\ exists r this',
       SeparateSubComponent 2 parent = Ok r this' []
       /\ distinct_addresses this'.
Proof.
  split; [exact distinct_addresses_parent|].
  destruct (separate_accounting 2 parent) as (r & this' & E & _ & Hd).
  exists r, this'. split; [exact E|].
  exact (proj1 (Hd distinct_addresses_parent)).
Defined.

Lemma add_accounting_witness :
  NoDup (addresses parent ++ addresses standalone)
  /\ exists this' log,
       AddSubComponent 2 (Some standalone) parent
       = Ok (set_Parent (Some 100) standalone) this' log
       /\ Permutation [100; 200; 300; 400]
            (addresses this' ++ destroyed log)
       /\ distinct_addresses this'.
Proof.
  split; [exact distinct_addresses_parent_standalone|].
  destruct (add_accounting 2 standalone parent)
    as (this' & log & E & Hp & Hd).
  exists this', log. split; [exact E|]. split; [exact Hp|].
  exact (Hd distinct_addresses_parent_standalone).
Defined.



Lemma remove_frees_slot_witness :
  unique_keys parent
  /\ exists this' log,
       RemoveComponent SampleValueComponent parent = Ok tt this' log
       /\ GetComponent SampleValueComponent this' = Ok None this' [].
Proof.
  split; [exact unique_keys_parent|].
  destruct (remove_frees_slot (RTTI := type_info) SampleValueComponent
              parent unique_keys_parent)
    as (this' & log & E & Hg & _).
  exists this', log. split; [exact E|exact Hg].
Defined.

Lemma has_versus_get_witness :
  find (hash_code (TypeInfo := Collision.type_info) 0%nat)
    (SubComponents Collision.holder) = Some Collision.foreign
  /\ is_base_of (RTTI := Collision.type_info) 0%nat
       (dynamic_type Collision.foreign) = false
  /\ HasComponent (RTTI := Collision.type_info) 0%nat Collision.holder
     = Ok true Collision.holder []
  /\ GetComponent (RTTI := Collision.type_info) 0%nat Collision.holder
     = Ok None Collision.holder [].
Proof.
  split; [reflexivity|]. split; [reflexivity|].
  exact (proj2 (proj2 (has_versus_get (RTTI := Collision.type_info) 0%nat
                         Collision.holder))
           Collision.foreign eq_refl eq_refl).
Defined.

Lemma separate_loses_foreign_object_witness :
  find (hash_code (TypeInfo := Collision.type_info) 0%nat)
    (SubComponents Collision.holder) = Some Collision.foreign
  /\ is_base_of (RTTI := Collision.type_info) 0%nat
       (dynamic_type Collision.foreign) = false
  /\ exists this',
       SeparateComponent (RTTI := Collision.type_info) 0%nat
         Collision.holder = Ok None this' []
       /\ GetComponents this' = [].
Proof.
  split; [reflexivity|]. split; [reflexivity|].
  destruct (separate_loses_foreign_object (RTTI := Collision.type_info)
              0%nat Collision.holder Collision.foreign eq_refl eq_refl)
    as (this' & E & Hm & _).
  exists this'. split; [exact E|exact Hm].
Defined.

Lemma acquire_evicts_foreign_object_witness :
  find (hash_code (TypeInfo := Collision.type_info) 0%nat)
    (SubComponents Collision.holder) = Some Collision.foreign
  /\ is_base_of (RTTI := Collision.type_info) 0%nat
       (dynamic_type Collision.foreign) = false
  /\ exists this',
       AcquireComponent (RTTI := Collision.type_info) 0%nat 500
         Collision.holder
       = Ok (Some (mkComponent 500 0%nat (Some 100) [] 0%Z)) this'
            [EvComponentDetached 100 200 (Some 100);
             EvDetachedFromComponent 200 (Some 100);
             EvDestructor 200;
             EvComponentAttached 100 500 (Some 100);
             EvAttachedToComponent 500 (Some 100)].
Proof.
  split; [reflexivity|]. split; [reflexivity|].
  destruct (acquire_evicts_foreign_object (RTTI := Collision.type_info)
              0%nat 500 Collision.holder Collision.foreign eq_refl eq_refl)
    as (this' & E & _).
  exists this'. exact E.
Defined.

Lemma every_call_returns_witness :
  run [0%nat; 0%nat]
    (start [call_SeparateSubComponent; call_AddSubComponent])
  = Some (mkSystem (mkMutex false 0%nat)
            [mkThread call_SeparateSubComponent finished;
             mkThread call_AddSubComponent waiting])
  /\ exists schedule' s',
       run schedule'
         (mkSystem (mkMutex false 0%nat)
            [mkThread call_SeparateSubComponent finished;
             mkThread call_AddSubComponent waiting])
       = Some s'
       /\ SubComponentsMutex s' = mkMutex false 0%nat.
Proof.
  split; [reflexivity|].
  destruct (every_call_returns
              [call_SeparateSubComponent; call_AddSubComponent]
              [0%nat; 0%nat] _ eq_refl)
    as (schedule' & s' & Hrun & _ & Hm).
  exists schedule', s'. split; [exact Hrun|exact Hm].
Defined.

Lemma shared_lock_calls_overlap_witness :
  Forall (fun f => guard f = shared_lock)
    [call_GetSubComponent; call_SeparateSubComponent; call_GetSubComponent]
  /\ run [0%nat; 1%nat; 2%nat]
       (start [call_GetSubComponent; call_SeparateSubComponent;
               call_GetSubComponent])
     = Some (mkSystem (mkMutex false 3%nat)
               [mkThread call_GetSubComponent inside;
                mkThread call_SeparateSubComponent inside;
                mkThread call_GetSubComponent inside]).
Proof.
  assert (H : Forall (fun f => guard f = shared_lock)
                [call_GetSubComponent; call_SeparateSubComponent;
                 call_GetSubComponent]).
  { repeat constructor. }
  split; [exact H|].
  exact (shared_lock_calls_overlap _ H).
Defined.

Lemma unique_lock_excludes_witness :
  run [0%nat] (start [call_RemoveSubComponent; call_GetSubComponent])
  = Some (mkSystem (mkMutex true 0%nat)
            [mkThread call_RemoveSubComponent inside;
             mkThread call_GetSubComponent waiting])
  /\ pc (mkThread call_GetSubComponent waiting) <> inside.
Proof.
  split; [reflexivity|].
  exact (unique_lock_excludes
           [call_RemoveSubComponent; call_GetSubComponent] [0%nat] _
           0%nat 1%nat _ _ eq_refl (Nat.neq_0_succ 0) eq_refl eq_refl
           eq_refl eq_refl).
Defined.

Lemma move_between_parents_witness :
  holds_child SampleValueComponent parent child
  /\ find (hash_code SampleValueComponent) (SubComponents standalone) = None
  /\ exists p' q',
       SeparateComponent SampleValueComponent parent = Ok (Some child) p' []
       /\ AdoptComponent SampleValueComponent (Some child) standalone
          = Ok (Some (set_Parent (Some 400) child)) q'
               [EvComponentAttached 400 200 (Some 400);
                EvAttachedToComponent 200 (Some 400)].
Proof.
  split; [reflexivity|]. split; [reflexivity|].
  destruct (move_between_parents (RTTI := type_info) SampleValueComponent
              parent standalone child eq_refl eq_refl)
    as (p' & q' & Hs & Ha & _).
  exists p', q'. split; [exact Hs|exact Ha].
Defined.
